(** * devcontainers-cli: config merging, feature build recipes, identifiers

    A shallow embedding of
      - src/spec-configuration/merge.ts          (module [Merge]),
      - src/spec-node/containerFeatures.ts       (module [ContainerFeatures]),
      - the features test command                (module [FeaturesTest]),
      - the feature identifier grammar           (module [FeatureIdentifier]),
    with the JavaScript built-ins they rest on in module [Js].

    Conventions.  JavaScript strings are Rocq strings and are taken to be
    ASCII (the identifier charset of the tool); numbers are the integers [Z].
    Property lookup is own-property lookup: prototypes are not part of the
    store, so the members an object inherits from Object.prototype (keys
    such as "constructor") are outside the model, and the theorems that
    read such keys say so; an assignment to [__proto__] creates no
    property. *)

From Stdlib Require Import Ascii String DecimalString ZArith Lia.
From stdpp Require Import prelude strings.

Set Warnings "-clear-no-such-hyp".

(* ================================================================== *)
(** * JavaScript built-ins *)
(* ================================================================== *)

Module Js.

(** The line feed written [\n] in the sources, and the double quote. *)
Definition LF : string := String "010"%char "".
Definition DQUOTE : string := String "034"%char "".

(** [Array.prototype.join] on an array of strings. *)
Fixpoint join (sep : string) (l : list string) : string :=
  match l with
  | [] => ""
  | x :: rest =>
      match rest with
      | [] => x
      | _ :: _ => x +:+ sep +:+ join sep rest
      end
  end.

(** [String.prototype.split] with a one-character separator and no limit. *)
Fixpoint split (sep : ascii) (s : string) : list string :=
  match s with
  | "" => [""]
  | String c s' =>
      if Ascii.eqb c sep then "" :: split sep s'
      else match split sep s' with
           | [] => [String c ""]
           | piece :: rest => String c piece :: rest
           end
  end.

(** [String.prototype.toUpperCase] on ASCII text: the letters [a] to [z]
    are mapped, every other character is kept. *)
Definition upper_ascii (c : ascii) : ascii :=
  let n := N_of_ascii c in
  if ((97 <=? n) && (n <=? 122))%N then ascii_of_N (n - 32) else c.

Fixpoint map_chars (f : ascii → ascii) (s : string) : string :=
  match s with
  | "" => ""
  | String c s' => String (f c) (map_chars f s')
  end.

Definition toUpperCase (s : string) : string := map_chars upper_ascii s.

(** Text of ASCII characters only. On such text [toUpperCase] above is
    JavaScript's; other letters, which JavaScript also maps (at times to
    more than one character), are outside the model. *)
Fixpoint is_ascii (s : string) : bool :=
  match s with
  | "" => true
  | String c s' => (N_of_ascii c <? 128)%N && is_ascii s'
  end.

(** [String.prototype.startsWith], [endsWith] and [includes]. *)
Definition startsWith (p s : string) : bool := String.prefix p s.

Fixpoint includes (p s : string) : bool :=
  String.prefix p s ||
  match s with
  | "" => false
  | String _ s' => includes p s'
  end.

Definition endsWith (p s : string) : bool :=
  (String.length p <=? String.length s)%nat &&
  String.eqb (String.substring (String.length s - String.length p) (String.length p) s) p.

(** An insertion-ordered [Set]: [new Set(iterable)] adds the elements one by
    one, an element already present (SameValueZero) is not added again, and
    spreading the set lists its elements in insertion order. *)
Definition Set_add `{EqDecision A} (s : list A) (x : A) : list A :=
  if decide (x ∈ s) then s else s ++ [x].

Definition new_Set `{EqDecision A} (l : list A) : list A := foldl Set_add [] l.

(** Decimal rendering of an array index, and the test whether a property key
    is an array index (a canonical numeric string below 2^32 - 1). *)
Definition index_key (i : nat) : string := NilEmpty.string_of_uint (Nat.to_uint i).

Definition array_index (k : string) : option N :=
  match NilEmpty.uint_of_string k with
  | Some u =>
      let n := N.of_uint u in
      if String.eqb (NilEmpty.string_of_uint (N.to_uint n)) k && (n <? 4294967295)%N
      then Some n else None
  | None => None
  end.

(** Own property keys are listed with array indices first, in ascending
    order, then the other keys in the order they were created. [key_before k
    k'] says that a new key [k] is listed before the existing key [k']. *)
Definition key_before (k k' : string) : bool :=
  match array_index k, array_index k' with
  | Some i, Some j => (i <? j)%N
  | Some _, None => true
  | None, _ => false
  end.

(** [o[k] = v] on the property list of an ordinary object. *)
Fixpoint set_property {V : Type} (k : string) (v : V) (props : list (string * V)) : list (string * V) :=
  match props with
  | [] => [(k, v)]
  | (k', v') :: rest =>
      if String.eqb k k' then (k, v) :: rest
      else if key_before k k' then (k, v) :: (k', v') :: rest
      else (k', v') :: set_property k v rest
  end.

(** [o[k]] on a property list: [None] is JavaScript's [undefined]. *)
Fixpoint get_property {V : Type} (k : string) (props : list (string * V)) : option V :=
  match props with
  | [] => None
  | (k', v) :: rest => if String.eqb k k' then Some v else get_property k rest
  end.

Section SetLemmas.
Context `{EqDecision A}.
Implicit Types (l acc : list A) (x y : A).

(** The deduplicated union in the spec's words: every element once, at the
    place of its first occurrence. *)
Fixpoint dedup_first l : list A :=
  match l with
  | [] => []
  | x :: rest => x :: filter (λ y, y ≠ x) (dedup_first rest)
  end.

Lemma elem_of_dedup_first x l : x ∈ dedup_first l ↔ x ∈ l.
Proof.
  induction l as [|y l IH]; simpl; [done|].
  rewrite !elem_of_cons, list_elem_of_filter, IH.
  destruct (decide (x = y)); naive_solver.
Qed.

Lemma NoDup_dedup_first l : NoDup (dedup_first l).
Proof.
  induction l as [|y l IH]; simpl; [constructor|].
  apply NoDup_cons. split.
  - rewrite list_elem_of_filter. naive_solver.
  - by apply NoDup_filter.
Qed.

Lemma dedup_first_filter (P : A → Prop) `{!∀ x, Decision (P x)} l :
  dedup_first (filter P l) = filter P (dedup_first l).
Proof.
  induction l as [|y l IH]; simpl; [done|].
  rewrite filter_cons. destruct (decide (P y)) as [Hy|Hy]; simpl.
  - rewrite filter_cons_True by done. f_equal.
    rewrite IH, !list_filter_filter. apply list_filter_iff. naive_solver.
  - rewrite filter_cons_False by done.
    rewrite IH, list_filter_filter. apply list_filter_iff.
    naive_solver.
Qed.

Lemma filter_ne_not_elem x l : x ∉ l → filter (λ y, y ≠ x) l = l.
Proof.
  induction l as [|y l IH]; [done|]. intros [? ?]%not_elem_of_cons.
  rewrite filter_cons_True by done. f_equal. auto.
Qed.

Lemma dedup_first_NoDup l : NoDup l → dedup_first l = l.
Proof.
  induction 1 as [|x l Hx _ IH]; simpl; [done|].
  by rewrite IH, filter_ne_not_elem.
Qed.

Lemma filter_not_elem_nil l : filter (λ y, y ∉ @nil A) l = l.
Proof.
  induction l as [|y l IH]; [done|].
  rewrite filter_cons_True by apply not_elem_of_nil. by f_equal.
Qed.

Lemma dedup_first_app l1 l2 :
  dedup_first (l1 ++ l2) = dedup_first l1 ++ dedup_first (filter (λ y, y ∉ l1) l2).
Proof.
  induction l1 as [|x l1 IH]; simpl.
  - by rewrite filter_not_elem_nil.
  - f_equal. rewrite IH, filter_app. f_equal.
    rewrite <- dedup_first_filter, list_filter_filter. f_equal.
    apply list_filter_iff. intros y. rewrite elem_of_cons. naive_solver.
Qed.

Lemma foldl_Set_add acc l :
  foldl Set_add acc l = acc ++ dedup_first (filter (λ y, y ∉ acc) l).
Proof.
  revert acc. induction l as [|x l IH]; intros acc; simpl.
  - by rewrite app_nil_r.
  - unfold Set_add at 2. destruct (decide (x ∈ acc)) as [Hx|Hx].
    + rewrite IH, filter_cons_False by naive_solver. done.
    + rewrite IH, filter_cons_True by done. simpl.
      rewrite <- app_assoc. simpl. do 2 f_equal.
      rewrite <- dedup_first_filter, list_filter_filter. f_equal.
      apply list_filter_iff. intros y.
      rewrite elem_of_app, list_elem_of_singleton. naive_solver.
Qed.

Lemma new_Set_dedup_first l : new_Set l = dedup_first l.
Proof.
  unfold new_Set. by rewrite foldl_Set_add, filter_not_elem_nil.
Qed.

Lemma elem_of_new_Set x l : x ∈ new_Set l ↔ x ∈ l.
Proof. rewrite new_Set_dedup_first. apply elem_of_dedup_first. Qed.

Lemma NoDup_new_Set l : NoDup (new_Set l).
Proof. rewrite new_Set_dedup_first. apply NoDup_dedup_first. Qed.

End SetLemmas.

End Js.

(* ================================================================== *)
(** * More JavaScript built-ins: text *)
(* ================================================================== *)

Module JsText.

(** [lacks c s]: the character [c] does not occur in [s]. *)
Fixpoint lacks (c : ascii) (s : string) : bool :=
  match s with
  | "" => true
  | String x rest => negb (Ascii.eqb x c) && lacks c rest
  end.

(** The number of occurrences of [c] in [s]. *)
Fixpoint count_char (c : ascii) (s : string) : nat :=
  match s with
  | "" => 0
  | String x rest => (if Ascii.eqb x c then 1 else 0) + count_char c rest
  end.

Fixpoint drop_chars (n : nat) (s : string) : string :=
  match n, s with
  | O, _ => s
  | S _, "" => ""
  | S n', String _ rest => drop_chars n' rest
  end.

(** The first occurrence of [pattern] in [s]: the text before it and the
    text after it. *)
Fixpoint find (pattern s : string) : option (string * string) :=
  if String.prefix pattern s then Some ("", drop_chars (String.length pattern) s)
  else
    match s with
    | "" => None
    | String c rest =>
        match find pattern rest with
        | Some (before, after) => Some (String c before, after)
        | None => None
        end
    end.

(** The replacement text of [String.prototype.replace] for a string
    pattern: [$$] stands for a dollar, [$&] for the matched text, [$`] and
    [$'] for the text before and after the match; any other dollar stands
    for itself (a string pattern captures nothing). *)
Fixpoint expand_replacement (matched before after replacement : string) : string :=
  match replacement with
  | "" => ""
  | String c rest =>
      if Ascii.eqb c "$" then
        match rest with
        | "" => "$"
        | String d rest' =>
            if Ascii.eqb d "$" then
              "$" +:+ expand_replacement matched before after rest'
            else if Ascii.eqb d "&" then
              matched +:+ expand_replacement matched before after rest'
            else if Ascii.eqb d "`" then
              before +:+ expand_replacement matched before after rest'
            else if Ascii.eqb d "'" then
              after +:+ expand_replacement matched before after rest'
            else String c (expand_replacement matched before after rest)
        end
      else String c (expand_replacement matched before after rest)
  end.

(** [subject.replace(pattern, replacement)] with a string pattern: the first
    occurrence only. *)
Definition replace (subject pattern replacement : string) : string :=
  match find pattern subject with
  | None => subject
  | Some (before, after) =>
      before +:+ expand_replacement pattern before after replacement +:+ after
  end.

Lemma cons_app (x : ascii) (a b : string) : String x a +:+ b = String x (a +:+ b).
Proof. reflexivity. Qed.

Lemma empty_app (b : string) : "" +:+ b = b.
Proof. reflexivity. Qed.

Lemma app_empty (a : string) : a +:+ "" = a.
Proof. induction a as [|x a IH]; [done|]. by rewrite cons_app, IH. Qed.

Lemma app_app (a b c : string) : (a +:+ b) +:+ c = a +:+ (b +:+ c).
Proof. induction a as [|x a IH]; [done|]. by rewrite !cons_app, IH. Qed.

Lemma length_app_string (a b : string) :
  String.length (a +:+ b) = String.length a + String.length b.
Proof. induction a as [|x a IH]; [done|]. rewrite cons_app. simpl. by rewrite IH. Qed.

Lemma lacks_app c a b : lacks c (a +:+ b) = lacks c a && lacks c b.
Proof.
  induction a as [|x a IH]; [done|].
  rewrite cons_app. simpl. by rewrite IH, andb_assoc.
Qed.

Lemma join_cons_char sep (c : ascii) piece rest :
  Js.join sep (String c piece :: rest) = String c (Js.join sep (piece :: rest)).
Proof. by destruct rest. Qed.

Lemma split_is_cons sep s : ∃ piece rest, Js.split sep s = piece :: rest.
Proof.
  induction s as [|c s (piece & rest & IH)]; simpl; [by eauto|].
  destruct (Ascii.eqb c sep); [by eauto|]. rewrite IH. eauto.
Qed.

Lemma join_split sep s : Js.join (String sep "") (Js.split sep s) = s.
Proof.
  induction s as [|c s IH]; [done|]. simpl.
  destruct (split_is_cons sep s) as (piece & rest & Hs). rewrite Hs in *.
  destruct (Ascii.eqb_spec c sep) as [->|Hne].
  - change (Js.join (String sep "") ("" :: piece :: rest))
      with ("" +:+ String sep "" +:+ Js.join (String sep "") (piece :: rest)).
    by rewrite IH.
  - by rewrite join_cons_char, IH.
Qed.

Lemma split_lacks sep s : Forall (λ piece, lacks sep piece = true) (Js.split sep s).
Proof.
  induction s as [|c s IH]; simpl; [by repeat constructor|].
  destruct (split_is_cons sep s) as (piece & rest & Hs). rewrite Hs in *.
  apply Forall_cons in IH as [Hp Hrest].
  destruct (Ascii.eqb c sep) eqn:Hc; repeat constructor; try done.
  simpl. by rewrite Hc, Hp.
Qed.

Lemma split_length sep s : length (Js.split sep s) = S (count_char sep s).
Proof.
  induction s as [|c s IH]; simpl; [done|].
  destruct (split_is_cons sep s) as (piece & rest & Hs). rewrite Hs in *.
  destruct (Ascii.eqb c sep); simpl in *; lia.
Qed.

Lemma split_lacking sep a : lacks sep a = true → Js.split sep a = [a].
Proof.
  induction a as [|x a IH]; simpl; [done|].
  intros [Hx Ha]%andb_true_iff. apply negb_true_iff in Hx. by rewrite Hx, IH.
Qed.

Lemma split_app_sep sep a b :
  lacks sep a = true → Js.split sep (a +:+ String sep b) = a :: Js.split sep b.
Proof.
  induction a as [|x a IH]; [rewrite empty_app|rewrite cons_app]; simpl.
  - by rewrite Ascii.eqb_refl.
  - intros [Hx Ha]%andb_true_iff. apply negb_true_iff in Hx. by rewrite Hx, IH.
Qed.

Lemma split_join sep (l : list string) :
  l ≠ [] → Forall (λ piece, lacks sep piece = true) l →
  Js.split sep (Js.join (String sep "") l) = l.
Proof.
  induction l as [|x l IH]; [done|]. intros _ [Hx Hl]%Forall_cons.
  destruct l as [|y l]; [by apply split_lacking|].
  change (Js.join (String sep "") (x :: y :: l))
    with (x +:+ String sep "" +:+ Js.join (String sep "") (y :: l)).
  rewrite cons_app, empty_app, split_app_sep by done. by rewrite IH.
Qed.

Lemma lacks_join c sep (l : list string) :
  lacks c sep = true → Forall (λ piece, lacks c piece = true) l →
  lacks c (Js.join sep l) = true.
Proof.
  intros Hsep. induction l as [|x l IH]; [done|]. intros [Hx Hl]%Forall_cons.
  destruct l as [|y l]; [done|].
  change (Js.join sep (x :: y :: l)) with (x +:+ sep +:+ Js.join sep (y :: l)).
  by rewrite !lacks_app, Hx, Hsep, IH.
Qed.

Lemma lacks_split c sep s :
  lacks c s = true → Forall (λ piece, lacks c piece = true) (Js.split sep s).
Proof.
  induction s as [|x s IH]; simpl; [by repeat constructor|].
  intros [Hx Hs]%andb_true_iff.
  destruct (split_is_cons sep s) as (piece & rest & Hsp). rewrite Hsp in *.
  apply IH, Forall_cons in Hs as [Hp Hrest].
  destruct (Ascii.eqb x sep); repeat constructor; try done.
  simpl. by rewrite Hx, Hp.
Qed.

Lemma prefix_first_ne (a c : ascii) (p s : string) :
  Ascii.eqb c a = false → String.prefix (String a p) (String c s) = false.
Proof.
  intros Hne. cbn -[ascii_dec]. destruct (ascii_dec a c) as [->|]; [|done].
  by rewrite Ascii.eqb_refl in Hne.
Qed.

Lemma find_skip (p0 : ascii) (p a s : string) :
  lacks p0 a = true →
  find (String p0 p) (a +:+ s)
  = match find (String p0 p) s with
    | Some (before, after) => Some (a +:+ before, after)
    | None => None
    end.
Proof.
  induction a as [|x a IH]; [rewrite empty_app|rewrite cons_app].
  - intros _. by destruct (find (String p0 p) s) as [[]|].
  - simpl lacks. intros [Hx Ha]%andb_true_iff. apply negb_true_iff in Hx.
    change (find (String p0 p) (String x (a +:+ s)))
      with (if String.prefix (String p0 p) (String x (a +:+ s))
            then Some ("", drop_chars (String.length (String p0 p)) (String x (a +:+ s)))
            else match find (String p0 p) (a +:+ s) with
                 | Some (before, after) => Some (String x before, after)
                 | None => None
                 end).
    rewrite prefix_first_ne, IH by done.
    by destruct (find (String p0 p) s) as [[]|].
Qed.

Lemma expand_plain matched before after replacement :
  lacks "$" replacement = true →
  expand_replacement matched before after replacement = replacement.
Proof.
  induction replacement as [|c r IH]; [done|]. simpl.
  intros [Hc Hr]%andb_true_iff. apply negb_true_iff in Hc. by rewrite Hc, IH.
Qed.

Lemma replace_found subject pattern replacement before after :
  find pattern subject = Some (before, after) → lacks "$" replacement = true →
  replace subject pattern replacement = before +:+ replacement +:+ after.
Proof. intros Hf Hr. unfold replace. by rewrite Hf, expand_plain. Qed.

Lemma replace_skip (p0 : ascii) (p a s replacement : string) :
  lacks p0 a = true → lacks "$" replacement = true →
  replace (a +:+ s) (String p0 p) replacement = a +:+ replace s (String p0 p) replacement.
Proof.
  intros Ha Hr. unfold replace. rewrite find_skip by done.
  destruct (find (String p0 p) s) as [[before after]|]; [|done].
  by rewrite !expand_plain, app_app.
Qed.

(** The pieces of [split]: splitting at a character and joining with it
    gives the text back; no piece holds the character; there is one piece
    more than there are separators (so one piece for the empty text). *)
Lemma split_pieces (sep : ascii) (s : string) :
  Js.join (String sep "") (Js.split sep s) = s
  ∧ Forall (λ piece, lacks sep piece = true) (Js.split sep s)
  ∧ length (Js.split sep s) = S (count_char sep s).
Proof. split; [apply join_split|]. split; [apply split_lacks|apply split_length]. Qed.

End JsText.


(* ================================================================== *)
(** * spec-configuration/merge.ts *)
(* ================================================================== *)

Module Merge.

(** [ExtendBehavior] is declared in spec-configuration/configuration; merge.ts
    switches over these three members. *)
Inductive ExtendBehavior := REPLACE | SKIP | MERGE.

(** Values are primitives or references into a store of arrays and plain
    objects, so that [Set] membership on objects is identity of reference. *)
Definition addr := nat.

Inductive value :=
| VUndefined
| VNull
| VBoolean (b : bool)
| VNumber (n : Z)
| VString (s : string)
| VRef (a : addr).

Inductive obj :=
| OArray (elems : list value)
| OObject (props : list (string * value)).

Abbreviation heap := (list obj).

#[global] Instance ExtendBehavior_eq_dec : EqDecision ExtendBehavior.
Proof. solve_decision. Defined.

#[global] Instance value_eq_dec : EqDecision value.
Proof. solve_decision. Defined.

#[global] Instance obj_eq_dec : EqDecision obj.
Proof. solve_decision. Defined.

(** Thrown values: [new Error(message)] and the engine's [TypeError]. *)
Inductive exn :=
| Error (message : string)
| TypeError (message : string).

Inductive result (A : Type) :=
| Ok (a : A)
| Throw (e : exn).
Arguments Ok {A} a.
Arguments Throw {A} e.

(** An [async] function is run to completion: it either resolves with a
    value and the store it leaves, or rejects with the thrown value. *)
Definition M (A : Type) : Type := heap → result (A * heap).

Definition ret {A} (a : A) : M A := λ h, Ok (a, h).

Definition bind {A B} (m : M A) (k : A → M B) : M B :=
  λ h, match m h with
       | Ok (a, h') => k a h'
       | Throw e => Throw e
       end.

Notation "'do' x <- m ; k" := (bind m (λ x, k))
  (at level 10, x name, m at level 100, k at level 200).

(** A cell that was never allocated reads as an empty object. *)
Definition deref (h : heap) (a : addr) : obj := default (OObject []) (h !! a).

(** A fresh array or object literal takes the next free address. *)
Definition alloc (o : obj) : M addr := λ h, Ok (length h, h ++ [o]).

(** Reading the store does not change it. *)
Definition read {A} (f : heap → result A) : M A :=
  λ h, match f h with
       | Ok a => Ok (a, h)
       | Throw e => Throw e
       end.

(** [Object.keys(v)]. *)
Definition own_keys (h : heap) (v : value) : result (list string) :=
  match v with
  | VUndefined | VNull => Throw (TypeError "Cannot convert undefined or null to object")
  | VBoolean _ | VNumber _ => Ok []
  | VString s => Ok (Js.index_key <$> seq 0 (String.length s))
  | VRef a =>
      match deref h a with
      | OArray elems => Ok (Js.index_key <$> seq 0 (length elems))
      | OObject props => Ok (props.*1)
      end
  end.

Definition Object_keys (v : value) : M (list string) := read (λ h, own_keys h v).

(** The indexed and [length] properties of arrays and strings. *)
Definition get_indexed {A} (len : nat) (nth : nat → option A) (inj : A → value) (key : string) : value :=
  if String.eqb key "length" then VNumber (Z.of_nat len)
  else match Js.array_index key with
       | Some i => from_option inj VUndefined (nth (N.to_nat i))
       | None => VUndefined
       end.

(** [v[key]], read from the own properties. What a value inherits is not
    part of the store: for a key that names a member of a prototype (of
    Object.prototype for an ordinary object, see [Object_prototype_names])
    and is no own property, JavaScript gives the inherited member where
    this gives [undefined]. *)
Definition get_value (h : heap) (v : value) (key : string) : result value :=
  match v with
  | VUndefined | VNull => Throw (TypeError "Cannot read properties of undefined or null")
  | VBoolean _ | VNumber _ => Ok VUndefined
  | VString s =>
      Ok (get_indexed (String.length s) (λ i, String.get i s) (λ c, VString (String c "")) key)
  | VRef a =>
      match deref h a with
      | OArray elems => Ok (get_indexed (length elems) (λ i, elems !! i) id key)
      | OObject props => Ok (default VUndefined (Js.get_property key props))
      end
  end.

Definition Get (v : value) (key : string) : M value := read (λ h, get_value h v key).

(** [target[key] = v] where [target] is the object at address [a], an
    ordinary object as the merge creates it, and [v] is another value. An
    own property is set or created, except for the key [__proto__] on an
    object without an own property of that name: that assignment runs the
    setter of Object.prototype, which changes the prototype of the object
    (when [v] is an object or null) and creates no own property.
    Prototypes are not part of the store, so the store is then left as it
    is. *)
Definition Set_ (a : addr) (key : string) (v : value) : M unit :=
  λ h, match deref h a with
       | OObject props =>
           if String.eqb key "__proto__" && negb (bool_decide (key ∈ props.*1))
           then Ok (tt, h)
           else Ok (tt, <[a := OObject (Js.set_property key v props)]> h)
       | OArray _ => Ok (tt, h)
       end.

(** [Array.isArray(v)], with [Object.values(v)] when it holds. *)
Definition as_array (h : heap) (v : value) : option (list value) :=
  match v with
  | VRef a =>
      match deref h a with
      | OArray elems => Some elems
      | OObject _ => None
      end
  | _ => None
  end.

Definition CheckValidityAndReturnUnionArray (obj1 obj2 : value) : M value :=
  λ h, match as_array h obj1, as_array h obj2 with
       | Some values1, Some values2 =>
           (do a <- alloc (OArray (Js.new_Set (values1 ++ values2))); ret (VRef a)) h
       | _, _ => Throw (Error "Object inputs aren't arrays")
       end.

Definition ApplyMergeStrategyToObjects
    (key : string) (parentValue childValue : value) (strategy : ExtendBehavior) : M value :=
  do outputValue <-
    match strategy with
    | REPLACE => ret childValue
    | SKIP => ret parentValue
    | MERGE => CheckValidityAndReturnUnionArray parentValue childValue
    end;
  do outputJSON <- alloc (OObject [(key, outputValue)]);
  ret (VRef outputJSON).

Definition GetBehaviorTypeOrDefault (behavior : option ExtendBehavior) : ExtendBehavior :=
  match behavior with
  | None => REPLACE
  | Some b => b
  end.

(** The body of the [for (let key of UnionListOfDocumentKeys)] loop, with
    [ExtendBehaviorTable key] standing for [ExtendBehaviorTable[key]]
    ([None] for [undefined]); the table itself is built by
    [buildExtendBehaviorTable] of spec-configuration/configuration. The
    [console.log] lines only print. *)
Fixpoint merge_keys (ExtendBehaviorTable : string → option ExtendBehavior)
    (parentDocument childDocument : value) (ResultingJSONDocument : addr)
    (keys : list string) : M unit :=
  match keys with
  | [] => ret tt
  | key :: rest =>
      do parentValue <- Get parentDocument key;
      do childValue <- Get childDocument key;
      do merged <- ApplyMergeStrategyToObjects key parentValue childValue
                     (GetBehaviorTypeOrDefault (ExtendBehaviorTable key));
      do _ <- Set_ ResultingJSONDocument key merged;
      merge_keys ExtendBehaviorTable parentDocument childDocument ResultingJSONDocument rest
  end.

Definition ApplyMergeStrategyToDocuments (ExtendBehaviorTable : string → option ExtendBehavior)
    (parentDocument childDocument : value) : M value :=
  do parentKeys <- Object_keys parentDocument;
  do childKeys <- Object_keys childDocument;
  let UnionListOfDocumentKeys := Js.new_Set (parentKeys ++ childKeys) in
  do ResultingJSONDocument <- alloc (OObject []);
  do _ <- merge_keys ExtendBehaviorTable parentDocument childDocument
            ResultingJSONDocument UnionListOfDocumentKeys;
  ret (VRef ResultingJSONDocument).

(** The names of the members of Object.prototype. An ordinary object
    inherits them: reading such a key gives the inherited member where the
    object has no own property of that name, and looking it up in a table
    that is an ordinary object does not give [undefined]. The model reads
    own properties and takes the behavior table as a function, so it
    stands for the code on the keys outside this list. *)
Definition Object_prototype_names : list string :=
  ["constructor"; "__defineGetter__"; "__defineSetter__"; "hasOwnProperty";
   "__lookupGetter__"; "__lookupSetter__"; "isPrototypeOf"; "propertyIsEnumerable";
   "toString"; "valueOf"; "__proto__"; "toLocaleString"].

(** An ordinary object of the store: a reference to a cell with
    properties (no array, no primitive). *)
Definition plain_object (h : heap) (v : value) : Prop :=
  ∃ a props, v = VRef a ∧ h !! a = Some (OObject props).

(** [undefined] and [null], on which property access throws. *)
Definition nullish (v : value) : bool :=
  match v with
  | VUndefined | VNull => true
  | _ => false
  end.

(** [below n v]: a reference [v] points to a cell allocated before address [n]. *)
Definition below (n : nat) (v : value) : Prop :=
  match v with
  | VRef a => a < n
  | _ => True
  end.

Definition in_heap (h : heap) (v : value) : Prop := below (length h) v.

(** Two stores agree on the cells before address [n]. *)
Definition agree (n : nat) (h h' : heap) : Prop := ∀ a, a < n → deref h' a = deref h a.

(** Documents as trees, to compare results by deep equality. [reify] reads
    the tree under a value out of the store, descending at most [fuel]
    references. *)
#[warnings="-register-all"]
Inductive json :=
| JUndefined
| JNull
| JBoolean (b : bool)
| JNumber (n : Z)
| JString (s : string)
| JArray (elems : list json)
| JObject (props : list (string * json)).

Fixpoint reify (fuel : nat) (h : heap) (v : value) : option json :=
  match v with
  | VUndefined => Some JUndefined
  | VNull => Some JNull
  | VBoolean b => Some (JBoolean b)
  | VNumber n => Some (JNumber n)
  | VString s => Some (JString s)
  | VRef a =>
      match fuel with
      | O => None
      | S fuel' =>
          match deref h a with
          | OArray elems => JArray <$> mapM (reify fuel' h) elems
          | OObject props =>
              JObject <$> mapM (λ kv, pair kv.1 <$> reify fuel' h kv.2) props
          end
      end
  end.

(** ** Stores that grow: cells allocated earlier are never touched *)

Lemma agree_refl n h : agree n h h.
Proof. by intros a _. Qed.

Lemma agree_trans n h1 h2 h3 : agree n h1 h2 → agree n h2 h3 → agree n h1 h3.
Proof. intros H12 H23 a Ha. by rewrite H23, H12. Qed.

Lemma agree_app n h ext : n ≤ length h → agree n h (h ++ ext).
Proof. intros Hn a Ha. unfold deref. rewrite lookup_app_l; [done|lia]. Qed.

Lemma agree_insert n h r o : n ≤ r → agree n h (<[r:=o]> h).
Proof. intros Hn a Ha. unfold deref. rewrite list_lookup_insert_ne; [done|lia]. Qed.

Lemma get_value_agree n h h' v key :
  agree n h h' → below n v → get_value h' v key = get_value h v key.
Proof. intros Hag Hv. destruct v; simpl in *; try done. by rewrite Hag. Qed.

Lemma as_array_agree n h h' v :
  agree n h h' → below n v → as_array h' v = as_array h v.
Proof. intros Hag Hv. destruct v; simpl in *; try done. by rewrite Hag. Qed.

Lemma get_value_total h v key : nullish v = false → ∃ x, get_value h v key = Ok x.
Proof.
  destruct v; simpl; try done; eauto.
  destruct (deref h a); eauto.
Qed.

Lemma own_keys_nullish h v ks : own_keys h v = Ok ks → nullish v = false.
Proof. by destruct v. Qed.

Lemma ApplyMerge_REPLACE key pv cv h :
  ApplyMergeStrategyToObjects key pv cv REPLACE h
  = Ok (VRef (length h), h ++ [OObject [(key, cv)]]).
Proof. reflexivity. Qed.

Lemma ApplyMerge_SKIP key pv cv h :
  ApplyMergeStrategyToObjects key pv cv SKIP h
  = Ok (VRef (length h), h ++ [OObject [(key, pv)]]).
Proof. reflexivity. Qed.

Lemma ApplyMerge_MERGE_arrays key pv cv h e1 e2 :
  as_array h pv = Some e1 → as_array h cv = Some e2 →
  ApplyMergeStrategyToObjects key pv cv MERGE h
  = Ok (VRef (S (length h)),
        h ++ [OArray (Js.new_Set (e1 ++ e2)); OObject [(key, VRef (length h))]]).
Proof.
  intros H1 H2. unfold ApplyMergeStrategyToObjects, bind, CheckValidityAndReturnUnionArray.
  rewrite H1, H2. unfold bind, alloc, ret. 
  rewrite length_app, <- app_assoc. simpl. do 3 f_equal. lia.
Qed.

Lemma ApplyMerge_MERGE_error key pv cv h :
  as_array h pv = None ∨ as_array h cv = None →
  ApplyMergeStrategyToObjects key pv cv MERGE h = Throw (Error "Object inputs aren't arrays").
Proof.
  intros H. unfold ApplyMergeStrategyToObjects, bind, CheckValidityAndReturnUnionArray.
  destruct (as_array h pv), (as_array h cv); naive_solver.
Qed.

Lemma ApplyMerge_extends key pv cv s h w h1 :
  ApplyMergeStrategyToObjects key pv cv s h = Ok (w, h1) → ∃ ext, h1 = h ++ ext.
Proof.
  destruct s.
  - rewrite ApplyMerge_REPLACE. intros [= <- <-]. eauto.
  - rewrite ApplyMerge_SKIP. intros [= <- <-]. eauto.
  - destruct (as_array h pv) as [e1|] eqn:H1; [destruct (as_array h cv) as [e2|] eqn:H2|].
    + rewrite (ApplyMerge_MERGE_arrays _ _ _ _ _ _ H1 H2). intros [= <- <-]. eauto.
    + rewrite ApplyMerge_MERGE_error by auto. done.
    + rewrite ApplyMerge_MERGE_error by auto. done.
Qed.


Lemma merge_keys_cons table parent child r key rest h :
  merge_keys table parent child r (key :: rest) h =
  match get_value h parent key with
  | Throw e => Throw e
  | Ok pv =>
      match get_value h child key with
      | Throw e => Throw e
      | Ok cv =>
          match ApplyMergeStrategyToObjects key pv cv (GetBehaviorTypeOrDefault (table key)) h with
          | Throw e => Throw e
          | Ok (w, h1) =>
              match Set_ r key w h1 with
              | Throw e => Throw e
              | Ok (_, h2) => merge_keys table parent child r rest h2
              end
          end
      end
  end.
Proof.
  simpl. unfold bind, Get, read.
  destruct (get_value h parent key); [|done].
  destruct (get_value h child key); [|done].
  destruct (ApplyMergeStrategyToObjects _ _ _ _ h) as [[w h1]|]; [|done].
  by destruct (Set_ r key w h1) as [[[] h2]|].
Qed.

Lemma Set__agree r key w h h2 : Set_ r key w h = Ok (tt, h2) → agree r h h2.
Proof.
  unfold Set_. destruct (deref h r) as [|props]; [intros [= <-]; apply agree_refl|].
  destruct (_ && _); intros [= <-]; [apply agree_refl|by apply agree_insert].
Qed.

Lemma Set__total r key w h : ∃ h2, Set_ r key w h = Ok (tt, h2).
Proof.
  unfold Set_. destruct (deref h r) as [|props]; [by eexists|].
  destruct (_ && _); by eexists.
Qed.

(** Assigning to a key other than [__proto__] sets an own property. *)
Lemma Set__own r key w h props :
  h !! r = Some (OObject props) → key ≠ "__proto__" →
  Set_ r key w h = Ok (tt, <[r := OObject (Js.set_property key w props)]> h).
Proof.
  intros Hr Hkey. unfold Set_, deref. rewrite Hr. simpl.
  by destruct (String.eqb_spec key "__proto__").
Qed.

(** Assigning to [__proto__] creates no own property. *)
Lemma Set__proto r w h props :
  h !! r = Some (OObject props) → "__proto__" ∉ props.*1 →
  Set_ r "__proto__" w h = Ok (tt, h).
Proof.
  intros Hr Hnew. unfold Set_, deref. rewrite Hr. simpl.
  by rewrite bool_decide_eq_false_2.
Qed.



Lemma Set__length r key w h h2 : Set_ r key w h = Ok (tt, h2) → length h2 = length h.
Proof.
  unfold Set_. destruct (deref h r) as [|props]; [by intros [= <-]|].
  destruct (_ && _); intros [= <-]; [done|by rewrite length_insert].
Qed.

Lemma Set__frame r key w h h2 a :
  Set_ r key w h = Ok (tt, h2) → a ≠ r → h2 !! a = h !! a.
Proof.
  unfold Set_. destruct (deref h r) as [|props]; [by intros [= <-]|].
  destruct (_ && _); intros [= <-] Hne; [done|by rewrite list_lookup_insert_ne].
Qed.

Lemma merge_keys_throws table parent child r keys key pv cv h0 : ∀ h,
  r ≤ length h → agree r h0 h →
  below r parent → below r child → below r pv → below r cv →
  get_value h0 parent key = Ok pv → get_value h0 child key = Ok cv →
  as_array h0 pv = None ∨ as_array h0 cv = None →
  table key = Some MERGE →
  key ∈ keys →
  ∃ e, merge_keys table parent child r keys h = Throw e.
Proof.
  intros h Hlen Hag Hbp Hbc Hbpv Hbcv Hpv Hcv Hbad Htab Hin. revert h Hlen Hag.
  induction keys as [|k rest IH]; intros h Hlen Hag; [by apply elem_of_nil in Hin|].
  rewrite merge_keys_cons.
  rewrite (get_value_agree r h0 h parent k Hag Hbp), (get_value_agree r h0 h child k Hag Hbc).
  destruct (decide (k = key)) as [->|Hne].
  - rewrite Hpv, Hcv, Htab. simpl.
    rewrite ApplyMerge_MERGE_error; [by eexists|].
    by rewrite (as_array_agree r h0 h pv Hag Hbpv), (as_array_agree r h0 h cv Hag Hbcv).
  - apply elem_of_cons in Hin as [->|Hin]; [done|].
    destruct (get_value h0 parent k) as [pv'|]; [|by eexists].
    destruct (get_value h0 child k) as [cv'|]; [|by eexists].
    destruct (ApplyMergeStrategyToObjects _ _ _ _ h) as [[w h1]|] eqn:Happ; [|by eexists].
    apply ApplyMerge_extends in Happ as [ext ->].
    destruct (Set_ r k w (h ++ ext)) as [[[] h2]|] eqn:Hset; [|by eexists].
    apply IH; [done| |].
    + rewrite (Set__length _ _ _ _ _ Hset), length_app. lia.
    + eapply agree_trans; [exact Hag|].
      eapply agree_trans; [by apply agree_app|by eapply Set__agree].
Qed.


(** ** The scenario of the spec: parent [{a:1, list:[1,2]}], child
    [{a:2, list:[2,3]}], [list] bound to MERGE. *)

Definition scenario_table (key : string) : option ExtendBehavior :=
  if String.eqb key "list" then Some MERGE else None.

Definition scenario_store : heap :=
  [ OObject [("a", VNumber 1); ("list", VRef 1)];
    OArray [VNumber 1; VNumber 2];
    OObject [("a", VNumber 2); ("list", VRef 3)];
    OArray [VNumber 2; VNumber 3] ].

(** C1 (evaluation of the code at the scenario). The merge of
    [{a:1, list:[1,2]}] and [{a:2, list:[2,3]}] resolves, and its result maps
    each key to the one-property object built by ApplyMergeStrategyToObjects:
    [{a:{a:2}, list:{list:[1,2,3]}}], which is not the flat document
    [{a:2, list:[1,2,3]}]. *)
Theorem scenario_merge_wraps_each_value :
  ∃ r h',
    ApplyMergeStrategyToDocuments scenario_table (VRef 0) (VRef 2) scenario_store = Ok (r, h')
    ∧ reify 3 h' r
      = Some (JObject [("a", JObject [("a", JNumber 2)]);
                       ("list", JObject [("list", JArray [JNumber 1; JNumber 2; JNumber 3])])])
    ∧ reify 3 h' r
      ≠ Some (JObject [("a", JNumber 2);
                       ("list", JArray [JNumber 1; JNumber 2; JNumber 3])]).
Proof. do 2 eexists. split; [vm_compute; reflexivity|]. split; [reflexivity|discriminate]. Qed.

(** C2. Under MERGE, when both values are arrays the merged value is a new
    array holding every element of the two exactly once, the parent's
    elements first in their order and then the child's new elements in
    theirs (elements are the same as a Set has it: primitives by value,
    arrays and objects by reference); in every other case
    CheckValidityAndReturnUnionArray throws, and so do
    ApplyMergeStrategyToObjects and the whole document merge, which then
    resolve to nothing. *)
Theorem MERGE_is_ordered_union_or_error (h : heap) (key : string) (parentValue childValue : value) :
  (∀ ps cs, as_array h parentValue = Some ps → as_array h childValue = Some cs →
     ∃ merged,
       ApplyMergeStrategyToObjects key parentValue childValue MERGE h
       = Ok (VRef (S (length h)), h ++ [OArray merged; OObject [(key, VRef (length h))]])
       ∧ merged = Js.dedup_first ps ++ Js.dedup_first (filter (λ x, x ∉ ps) cs)
       ∧ NoDup merged
       ∧ ∀ x, x ∈ merged ↔ x ∈ ps ∨ x ∈ cs)
  ∧ (as_array h parentValue = None ∨ as_array h childValue = None →
       CheckValidityAndReturnUnionArray parentValue childValue h
       = Throw (Error "Object inputs aren't arrays")
       ∧ ApplyMergeStrategyToObjects key parentValue childValue MERGE h
         = Throw (Error "Object inputs aren't arrays"))
  ∧ (∀ table parent child pk ck,
       own_keys h parent = Ok pk → own_keys h child = Ok ck → key ∈ pk ++ ck →
       table key = Some MERGE →
       in_heap h parent → in_heap h child →
       in_heap h parentValue → in_heap h childValue →
       get_value h parent key = Ok parentValue →
       get_value h child key = Ok childValue →
       as_array h parentValue = None ∨ as_array h childValue = None →
       ∃ e, ApplyMergeStrategyToDocuments table parent child h = Throw e).
Proof.
  split; [|split].
  - intros ps cs Hp Hc. exists (Js.new_Set (ps ++ cs)).
    split; [by apply ApplyMerge_MERGE_arrays|].
    split; [by rewrite Js.new_Set_dedup_first, Js.dedup_first_app|].
    split; [apply Js.NoDup_new_Set|].
    intros x. by rewrite Js.elem_of_new_Set, elem_of_app.
  - intros Hbad. split; [|by apply ApplyMerge_MERGE_error].
    unfold CheckValidityAndReturnUnionArray.
    destruct (as_array h parentValue), (as_array h childValue); naive_solver.
  - intros table parent child pk ck Hpk Hck Hin Htab Hp Hc Hpv Hcv Hgp Hgc Hbad.
    unfold ApplyMergeStrategyToDocuments, bind, Object_keys, read.
    rewrite Hpk, Hck. simpl.
    destruct (merge_keys_throws table parent child (length h)
                (Js.new_Set (pk ++ ck)) key parentValue childValue h
                (h ++ [OObject []])) as [e ->]; try done.
    + rewrite length_app. lia.
    + by apply agree_app.
    + by apply Js.elem_of_new_Set.
    + by eexists.
Qed.

(** C2 at the scenario: the two lists merge to [1,2,3]; a number is no array. *)
Lemma MERGE_is_ordered_union_or_error_witness :
  ApplyMergeStrategyToObjects "list" (VRef 1) (VRef 3) MERGE scenario_store
  = Ok (VRef 5, scenario_store ++ [OArray [VNumber 1; VNumber 2; VNumber 3];
                                   OObject [("list", VRef 4)]])
  ∧ ApplyMergeStrategyToObjects "a" (VNumber 1) (VRef 3) MERGE scenario_store
    = Throw (Error "Object inputs aren't arrays")
  ∧ ∃ e, ApplyMergeStrategyToDocuments (λ _, Some MERGE) (VRef 0) (VRef 2) scenario_store
         = Throw e.
Proof.
  split; [|split].
  - destruct (MERGE_is_ordered_union_or_error scenario_store "list" (VRef 1) (VRef 3))
      as [Harr _].
    destruct (Harr [VNumber 1; VNumber 2] [VNumber 2; VNumber 3] eq_refl eq_refl)
      as (merged & Hrun & -> & _).
    exact Hrun.
  - destruct (MERGE_is_ordered_union_or_error scenario_store "a" (VNumber 1) (VRef 3))
      as (_ & Hthrow & _).
    apply Hthrow. by left.
  - destruct (MERGE_is_ordered_union_or_error scenario_store "a" (VNumber 1) (VNumber 2))
      as (_ & _ & Hdoc).
    apply (Hdoc (λ _, Some MERGE) (VRef 0) (VRef 2) ["a"; "list"] ["a"; "list"]);
      try reflexivity; try exact I; simpl; try lia.
    + apply list_elem_of_here.
    + by left.
Defined.

(** C3 (evaluation of the code at [a = {}], [b = {x:1}], every key on the
    default REPLACE). [merge(a, b)] is [{x:{x:1}}] and [merge(a, merge(a, b))]
    is [{x:{x:{x:1}}}]: merging again wraps the value once more, so the two
    differ. *)
Theorem merge_again_wraps_once_more :
  let store := [OObject []; OObject [("x", VNumber 1)]] in
  ∃ ab h1 aab h2,
    ApplyMergeStrategyToDocuments (λ _, None) (VRef 0) (VRef 1) store = Ok (ab, h1)
    ∧ ApplyMergeStrategyToDocuments (λ _, None) (VRef 0) ab h1 = Ok (aab, h2)
    ∧ reify 4 h2 ab = Some (JObject [("x", JObject [("x", JNumber 1)])])
    ∧ reify 4 h2 aab = Some (JObject [("x", JObject [("x", JObject [("x", JNumber 1)])])])
    ∧ reify 4 h2 aab ≠ reify 4 h2 ab.
Proof.
  do 4 eexists. split; [vm_compute; reflexivity|]. split; [vm_compute; reflexivity|].
  split; [reflexivity|]. split; [reflexivity|discriminate].
Qed.





(** ** What a merge does to the store, and what its result looks like *)

(** A store with no dangling reference: every reference kept in a cell
    points to a cell of the store. *)
Definition closed_obj (n : nat) (o : obj) : Prop :=
  match o with
  | OArray elems => Forall (below n) elems
  | OObject props => Forall (below n) props.*2
  end.

Definition closed (h : heap) : Prop := Forall (closed_obj (length h)) h.

Lemma get_set_property_eq {V} key (v : V) props :
  Js.get_property key (Js.set_property key v props) = Some v.
Proof.
  induction props as [|[k' v'] props IH]; simpl.
  - by rewrite String.eqb_refl.
  - destruct (String.eqb_spec key k') as [->|Hne]; simpl.
    + by rewrite String.eqb_refl.
    + destruct (Js.key_before key k'); simpl.
      * by rewrite String.eqb_refl.
      * by destruct (String.eqb_spec key k').
Qed.

Lemma get_set_property_ne {V} key k (v : V) props :
  k ≠ key → Js.get_property k (Js.set_property key v props) = Js.get_property k props.
Proof.
  intros Hk. induction props as [|[k' v'] props IH]; simpl.
  - by destruct (String.eqb_spec k key).
  - destruct (String.eqb_spec key k') as [->|Hne]; simpl.
    + destruct (String.eqb_spec k k'); done.
    + destruct (Js.key_before key k'); simpl.
      * by destruct (String.eqb_spec k key).
      * destruct (String.eqb_spec k k'); done.
Qed.

Lemma set_property_new {V} key (v : V) props :
  key ∉ props.*1 → Js.array_index key = None →
  Js.set_property key v props = props ++ [(key, v)].
Proof.
  intros Hnew Hidx. induction props as [|[k' v'] props IH]; simpl; [done|].
  simpl in Hnew. apply not_elem_of_cons in Hnew as [Hne Hnew].
  destruct (String.eqb_spec key k'); [done|].
  unfold Js.key_before. rewrite Hidx. by rewrite IH.
Qed.

Lemma get_property_elem {V} key (v : V) props :
  Js.get_property key props = Some v → v ∈ props.*2.
Proof.
  induction props as [|[k' v'] props IH]; simpl; [done|].
  destruct (String.eqb key k'); [intros [= ->]; apply list_elem_of_here|].
  intros Hg. apply list_elem_of_further. by apply IH.
Qed.

Lemma get_value_below h v key x :
  closed h → in_heap h v → get_value h v key = Ok x → in_heap h x.
Proof.
  intros Hcl Hv. destruct v as [| | | |s|a]; simpl; try (intros [= <-]; exact I).
  - intros [= <-]. unfold get_indexed.
    destruct (String.eqb key "length"); [exact I|].
    destruct (Js.array_index key); [|exact I].
    by destruct (String.get _ s).
  - simpl in Hv. unfold deref.
    destruct (h !! a) as [o|] eqn:Ha; simpl; [|intros [= <-]; exact I].
    pose proof (proj1 (Forall_lookup _ _) Hcl a o Ha) as Ho.
    destruct o as [elems|props]; simpl in Ho; intros [= <-].
    + unfold get_indexed. destruct (String.eqb key "length"); [exact I|].
      destruct (Js.array_index key) as [i|]; [|exact I].
      destruct (elems !! N.to_nat i) as [e|] eqn:He; simpl; [|exact I].
      exact (proj1 (Forall_lookup _ _) Ho _ _ He).
    + destruct (Js.get_property key props) as [v|] eqn:Hg; simpl; [|exact I].
      apply (proj1 (Forall_forall _ _) Ho). by eapply get_property_elem.
Qed.

(** One turn of the loop only appends cells and rewrites the result cell. *)
Lemma merge_keys_frame table parent child r keys : ∀ h h',
  merge_keys table parent child r keys h = Ok (tt, h') →
  length h ≤ length h' ∧ ∀ a, a ≠ r → a < length h → h' !! a = h !! a.
Proof.
  induction keys as [|key rest IH]; intros h h' Hrun.
  - by injection Hrun as <-.
  - rewrite merge_keys_cons in Hrun.
    destruct (get_value h parent key) as [pv|]; [|done].
    destruct (get_value h child key) as [cv|]; [|done].
    destruct (ApplyMergeStrategyToObjects _ _ _ _ h) as [[w h1]|] eqn:Happ; [|done].
    apply ApplyMerge_extends in Happ as [ext ->].
    destruct (Set_ r key w (h ++ ext)) as [[[] h2]|] eqn:Hset; [|done].
    apply IH in Hrun as [Hlen Hsame].
    pose proof (Set__length _ _ _ _ _ Hset) as Hl2. rewrite length_app in Hl2.
    split; [lia|]. intros a Hne Ha. rewrite Hsame by (done || lia).
    rewrite (Set__frame _ _ _ _ _ _ Hset) by done. by rewrite lookup_app_l.
Qed.

(** X1: merging never touches what was in the store: the store after a merge
    that resolves is the store before with new cells appended, the result
    is the first of the new cells, and both documents read as before. *)
Theorem merge_only_appends table parent child h r h' :
  ApplyMergeStrategyToDocuments table parent child h = Ok (r, h') →
  r = VRef (length h)
  ∧ (∃ cells, h' = h ++ cells)
  ∧ ∀ v key, in_heap h v → get_value h' v key = get_value h v key.
Proof.
  unfold ApplyMergeStrategyToDocuments, bind, Object_keys, read, alloc, ret.
  destruct (own_keys h parent) as [pk|]; [|done].
  destruct (own_keys h child) as [ck|]; [|done].
  destruct (merge_keys _ _ _ _ _ _) as [[[] h2]|] eqn:Hrun; [|done].
  intros [= <- <-]. apply merge_keys_frame in Hrun as [Hlen Hsame].
  rewrite length_app in Hlen. simpl in Hlen.
  assert (take (length h) h2 = h) as Htake.
  { apply list_eq. intros a. destruct (decide (a < length h)) as [Ha|Ha].
    - rewrite lookup_take_lt by done. rewrite Hsame; [by rewrite lookup_app_l|lia|].
      rewrite length_app. lia.
    - rewrite lookup_take_ge by lia. symmetry. apply lookup_ge_None. lia. }
  split; [done|]. split.
  - exists (drop (length h) h2). by rewrite <- Htake at 1; rewrite take_drop.
  - intros v key Hv. apply (get_value_agree (length h)); [|done].
    intros a Ha. unfold deref. rewrite Hsame; [by rewrite lookup_app_l|lia|].
    rewrite length_app. lia.
Qed.

Lemma merge_only_appends_witness :
  ∃ cells, match ApplyMergeStrategyToDocuments scenario_table (VRef 0) (VRef 2) scenario_store with
           | Ok (_, h') => h' = scenario_store ++ cells
           | Throw _ => False
           end.
Proof.
  destruct (ApplyMergeStrategyToDocuments scenario_table (VRef 0) (VRef 2) scenario_store)
    as [[r h']|e] eqn:Hrun.
  - destruct (merge_only_appends _ _ _ _ _ _ Hrun) as (_ & Hcells & _). exact Hcells.
  - vm_compute in Hrun. discriminate.
Defined.

Lemma merge_keys_order table parent child r keys : ∀ h props h',
  h !! r = Some (OObject props) →
  NoDup (props.*1 ++ keys) → Forall (λ k, Js.array_index k = None) keys →
  merge_keys table parent child r keys h = Ok (tt, h') →
  ∃ props', h' !! r = Some (OObject props')
            ∧ props'.*1 = props.*1 ++ filter (λ k, k ≠ "__proto__") keys.
Proof.
  induction keys as [|key rest IH]; intros h props h' Hr Hnd Hidx Hrun.
  - injection Hrun as <-. exists props. by rewrite app_nil_r.
  - rewrite merge_keys_cons in Hrun.
    destruct (get_value h parent key) as [pv|]; [|done].
    destruct (get_value h child key) as [cv|]; [|done].
    destruct (ApplyMergeStrategyToObjects _ _ _ _ h) as [[w h1]|] eqn:Happ; [|done].
    apply ApplyMerge_extends in Happ as [ext ->].
    assert (r < length h) as Hlt by (by eapply lookup_lt_Some).
    assert ((h ++ ext) !! r = Some (OObject props)) as Hr1 by (by rewrite lookup_app_l).
    apply Forall_cons in Hidx as [Hkey Hidx].
    assert (key ∉ props.*1) as Hnew.
    { apply NoDup_app in Hnd as (_ & Hdisj & _). intros Hin.
      apply (Hdisj key Hin), list_elem_of_here. }
    destruct (decide (key = "__proto__")) as [->|Hproto].
    + rewrite (Set__proto _ _ _ _ Hr1 Hnew) in Hrun.
      rewrite filter_cons_False by (by intros []).
      eapply IH in Hrun; [done|done| |done].
      apply NoDup_app in Hnd as (Hnd1 & Hdisj & [_ Hnd2]%NoDup_cons).
      apply NoDup_app. repeat split; [done| |done].
      intros k Hk Hk'. apply (Hdisj k Hk). by apply list_elem_of_further.
    + rewrite (Set__own _ _ _ _ _ Hr1 Hproto) in Hrun.
      rewrite (set_property_new key w props Hnew Hkey) in Hrun.
      rewrite filter_cons_True by done.
      assert ((props ++ [(key, w)]).*1 ++ rest = props.*1 ++ key :: rest) as Heq.
      { by rewrite fmap_app, <- app_assoc. }
      eapply IH in Hrun as (props' & Hr' & Hkeys); [| |by rewrite Heq|done].
      2:{ apply list_lookup_insert_eq. rewrite length_app. lia. }
      exists props'. split; [done|]. by rewrite Hkeys, fmap_app, <- app_assoc.
Qed.

(** X2: when no key is an array index, the keys of the merged document are
    listed in the order of the loop: the parent's keys in their order, then
    the keys only the child has, in the child's order; the key [__proto__]
    is left out, as the assignment to it creates no property. *)
Theorem merged_keys_follow_union_order table h parent child pk ck r h' :
  own_keys h parent = Ok pk → own_keys h child = Ok ck →
  Forall (λ k, Js.array_index k = None) (pk ++ ck) →
  ApplyMergeStrategyToDocuments table parent child h = Ok (r, h') →
  own_keys h' r
  = Ok (filter (λ k, k ≠ "__proto__")
          (Js.dedup_first pk ++ Js.dedup_first (filter (λ k, k ∉ pk) ck))).
Proof.
  intros Hpk Hck Hidx.
  unfold ApplyMergeStrategyToDocuments, bind, Object_keys, read, alloc, ret.
  rewrite Hpk, Hck. simpl.
  destruct (merge_keys _ _ _ _ _ _) as [[[] h2]|] eqn:Hrun; [|done].
  intros [= <- <-].
  eapply (merge_keys_order _ _ _ _ _ _ []) in Hrun as (props' & Hr & Hkeys).
  - simpl. unfold deref. rewrite Hr. simpl.
    by rewrite Hkeys, Js.new_Set_dedup_first, Js.dedup_first_app.
  - by apply list_lookup_middle.
  - apply Js.NoDup_new_Set.
  - apply Forall_forall. intros k Hk. apply (proj1 (Js.elem_of_new_Set _ _)) in Hk.
    revert k Hk. by apply Forall_forall.
Qed.

Lemma merged_keys_follow_union_order_witness :
  ∃ r h', ApplyMergeStrategyToDocuments scenario_table (VRef 0) (VRef 2) scenario_store
          = Ok (r, h')
          ∧ own_keys h' r = Ok ["a"; "list"].
Proof.
  destruct (ApplyMergeStrategyToDocuments scenario_table (VRef 0) (VRef 2) scenario_store)
    as [[r h']|e] eqn:Hrun; [|vm_compute in Hrun; discriminate].
  exists r, h'. split; [done|].
  apply (merged_keys_follow_union_order scenario_table scenario_store (VRef 0) (VRef 2)
           ["a"; "list"] ["a"; "list"] r h' eq_refl eq_refl); [|exact Hrun].
  repeat constructor.
Defined.

(** What the merge stores for a key: the child's value under REPLACE, the
    parent's under SKIP, a new array with the union under MERGE. *)
Definition merged_value (h h' : heap) (strategy : ExtendBehavior)
    (parentValue childValue outputValue : value) : Prop :=
  match strategy with
  | REPLACE => outputValue = childValue
  | SKIP => outputValue = parentValue
  | MERGE =>
      ∃ a ps cs, outputValue = VRef a
        ∧ as_array h parentValue = Some ps ∧ as_array h childValue = Some cs
        ∧ h' !! a = Some (OArray (Js.new_Set (ps ++ cs)))
  end.

Definition merged_entry (table : string → option ExtendBehavior) (h h' : heap)
    (parent child : value) (props : list (string * value)) (key : string) : Prop :=
  ∃ w outputValue parentValue childValue,
    get_value h parent key = Ok parentValue
    ∧ get_value h child key = Ok childValue
    ∧ Js.get_property key props = Some (VRef w)
    ∧ h' !! w = Some (OObject [(key, outputValue)])
    ∧ merged_value h h' (GetBehaviorTypeOrDefault (table key))
        parentValue childValue outputValue.

Lemma ApplyMerge_inv key pv cv s h w h1 :
  ApplyMergeStrategyToObjects key pv cv s h = Ok (w, h1) →
  ∃ out cells,
    h1 = h ++ cells ++ [OObject [(key, out)]]
    ∧ w = VRef (length h + length cells)
    ∧ match s with
      | REPLACE => out = cv ∧ cells = []
      | SKIP => out = pv ∧ cells = []
      | MERGE => ∃ ps cs, as_array h pv = Some ps ∧ as_array h cv = Some cs
                          ∧ out = VRef (length h)
                          ∧ cells = [OArray (Js.new_Set (ps ++ cs))]
      end.
Proof.
  destruct s.
  - rewrite ApplyMerge_REPLACE. intros [= <- <-]. exists cv, []. simpl.
    by rewrite Nat.add_0_r.
  - rewrite ApplyMerge_SKIP. intros [= <- <-]. exists pv, []. simpl.
    by rewrite Nat.add_0_r.
  - destruct (as_array h pv) as [ps|] eqn:H1; [destruct (as_array h cv) as [cs|] eqn:H2|].
    + rewrite (ApplyMerge_MERGE_arrays _ _ _ _ _ _ H1 H2). intros [= <- <-].
      exists (VRef (length h)), [OArray (Js.new_Set (ps ++ cs))]. simpl.
      split; [done|]. split; [by rewrite Nat.add_1_r|]. by exists ps, cs.
    + rewrite ApplyMerge_MERGE_error by auto. done.
    + rewrite ApplyMerge_MERGE_error by auto. done.
Qed.

Lemma merge_keys_entries table parent child (r : addr) h0 keys :
  closed h0 → in_heap h0 parent → in_heap h0 child → length h0 ≤ r →
  Forall (λ k, k ≠ "__proto__") keys →
  ∀ h props h',
    agree (length h0) h0 h → h !! r = Some (OObject props) →
    merge_keys table parent child r keys h = Ok (tt, h') →
    ∃ props', h' !! r = Some (OObject props')
      ∧ (∀ k, k ∉ keys → Js.get_property k props' = Js.get_property k props)
      ∧ ∀ k, k ∈ keys → merged_entry table h0 h' parent child props' k.
Proof.
  intros Hcl Hp Hc Hr0.
  induction keys as [|key rest IH]; intros Hproto h props h' Hag Hr Hrun.
  - injection Hrun as <-. exists props. split; [done|]. split; [done|].
    intros k Hk. by apply elem_of_nil in Hk.
  - rewrite merge_keys_cons in Hrun.
    rewrite (get_value_agree _ h0 h parent key Hag Hp),
      (get_value_agree _ h0 h child key Hag Hc) in Hrun.
    destruct (get_value h0 parent key) as [pv|] eqn:Hpv; [|done].
    destruct (get_value h0 child key) as [cv|] eqn:Hcv; [|done].
    pose proof (get_value_below _ _ _ _ Hcl Hp Hpv) as Hbp.
    pose proof (get_value_below _ _ _ _ Hcl Hc Hcv) as Hbc.
    destruct (ApplyMergeStrategyToObjects _ _ _ _ h) as [[w h1]|] eqn:Happ; [|done].
    apply ApplyMerge_inv in Happ as (out & cells & -> & -> & Hout).
    assert (r < length h) as Hlt by (by eapply lookup_lt_Some).
    assert ((h ++ cells ++ [OObject [(key, out)]]) !! r = Some (OObject props)) as Hr1
      by (by rewrite lookup_app_l).
    apply Forall_cons in Hproto as [Hkey Hproto].
    rewrite (Set__own _ _ _ _ _ Hr1 Hkey) in Hrun.
    set (h1 := h ++ cells ++ [OObject [(key, out)]]) in *.
    assert (length h1 = length h + length cells + 1) as Hl1.
    { unfold h1. rewrite !length_app. simpl. lia. }
    set (wi := length h + length cells) in *.
    assert (h1 !! wi = Some (OObject [(key, out)])) as Hw.
    { unfold h1. rewrite app_assoc. apply list_lookup_middle. by rewrite length_app. }
    set (props2 := Js.set_property key (VRef wi) props) in *.
    set (h2 := <[r:=OObject props2]> h1) in *.
    assert (length h2 = length h1) as Hl2 by apply length_insert.
    pose proof (merge_keys_frame _ _ _ _ _ _ _ Hrun) as [_ Hframe].
    eapply IH in Hrun as (props' & Hr' & Hother & Hrest); [|done|..].
    2:{ intros a Ha. rewrite <- (Hag a Ha). unfold deref, h2, h1.
        rewrite list_lookup_insert_ne by lia. rewrite lookup_app_l; [done|lia]. }
    2:{ apply list_lookup_insert_eq. lia. }
    exists props'. split; [done|]. split.
    + intros k Hk. apply not_elem_of_cons in Hk as [Hne Hk].
      rewrite Hother by done. by apply get_set_property_ne.
    + intros k Hk. destruct (decide (k ∈ rest)) as [Hin|Hnin]; [by apply Hrest|].
      apply elem_of_cons in Hk as [->|Hk]; [|done].
      exists wi, out, pv, cv. split; [done|]. split; [done|]. split.
      { rewrite Hother by done. apply get_set_property_eq. }
      split.
      { rewrite Hframe by lia. unfold h2. by rewrite list_lookup_insert_ne by lia. }
      destruct (GetBehaviorTypeOrDefault (table key)); simpl.
      * by destruct Hout.
      * by destruct Hout.
      * destruct Hout as (ps & cs & Hps & Hcs & -> & Hcells).
        exists (length h), ps, cs. split; [done|].
        rewrite <- (as_array_agree _ h0 h pv Hag Hbp), <- (as_array_agree _ h0 h cv Hag Hbc).
        split; [done|]. split; [done|].
        assert (length cells = 1) as Hc1 by (by rewrite Hcells).
        rewrite Hframe by lia. unfold h2. rewrite list_lookup_insert_ne by lia.
        unfold h1. rewrite Hcells. by apply list_lookup_middle.
Qed.

Lemma plain_object_in_heap h v : plain_object h v → in_heap h v.
Proof. intros (a & props & -> & Ha). simpl. by eapply lookup_lt_Some. Qed.

Lemma not_prototype_name_proto k : k ∉ Object_prototype_names → k ≠ "__proto__".
Proof.
  intros Hk ->. apply Hk. unfold Object_prototype_names. rewrite !elem_of_cons. naive_solver.
Qed.

(** X3: the shape of every merged document. For two ordinary objects in a
    store without dangling references, whose keys are no names of members
    of Object.prototype, each key of the union is bound in the result to a
    new object with that one key, whose value is the child's value under
    REPLACE, the parent's under SKIP, and under MERGE a new array holding
    the union of the two arrays. *)
Theorem merged_document_shape table h parent child pk ck r h' :
  closed h → plain_object h parent → plain_object h child →
  own_keys h parent = Ok pk → own_keys h child = Ok ck →
  Forall (λ k, k ∉ Object_prototype_names) (pk ++ ck) →
  ApplyMergeStrategyToDocuments table parent child h = Ok (r, h') →
  ∃ props, r = VRef (length h) ∧ h' !! length h = Some (OObject props)
    ∧ ∀ key, key ∈ pk ++ ck → merged_entry table h h' parent child props key.
Proof.
  intros Hcl Hp%plain_object_in_heap Hc%plain_object_in_heap Hpk Hck Hnames.
  unfold ApplyMergeStrategyToDocuments, bind, Object_keys, read, alloc, ret.
  rewrite Hpk, Hck. simpl.
  destruct (merge_keys _ _ _ _ _ _) as [[[] h2]|] eqn:Hrun; [|done].
  intros [= <- <-].
  eapply (merge_keys_entries table parent child (length h) h) in Hrun
    as (props' & Hr & _ & Hentries); try done.
  - exists props'. split; [done|]. split; [done|].
    intros key Hkey. by apply Hentries, Js.elem_of_new_Set.
  - apply Forall_forall. intros k Hk. apply (proj1 (Js.elem_of_new_Set _ _)) in Hk.
    apply not_prototype_name_proto. revert k Hk. by apply Forall_forall.
  - by apply agree_app.
  - by apply list_lookup_middle.
Qed.

Lemma closed_scenario_store : closed scenario_store.
Proof. repeat constructor; simpl; lia. Qed.

Lemma merged_document_shape_witness :
  ∃ r h' props,
    ApplyMergeStrategyToDocuments scenario_table (VRef 0) (VRef 2) scenario_store = Ok (r, h')
    ∧ h' !! 4 = Some (OObject props)
    ∧ merged_entry scenario_table scenario_store h' (VRef 0) (VRef 2) props "list".
Proof.
  destruct (ApplyMergeStrategyToDocuments scenario_table (VRef 0) (VRef 2) scenario_store)
    as [[r h']|e] eqn:Hrun; [|vm_compute in Hrun; discriminate].
  destruct (merged_document_shape scenario_table scenario_store (VRef 0) (VRef 2)
              ["a"; "list"] ["a"; "list"] r h') as (props & _ & Hcell & Hentries).
  - exact closed_scenario_store.
  - by eexists 0, _.
  - by eexists 2, _.
  - reflexivity.
  - reflexivity.
  - unfold Object_prototype_names.
    repeat constructor; rewrite !elem_of_cons, elem_of_nil;
      intros Hin; repeat destruct Hin as [Hin|Hin]; discriminate || done.
  - exact Hrun.
  - exists r, h', props. split; [done|]. split; [exact Hcell|].
    apply Hentries. apply list_elem_of_further, list_elem_of_here.
Defined.

Lemma own_keys_total h v : nullish v = false → ∃ ks, own_keys h v = Ok ks.
Proof.
  destruct v; simpl; try done; eauto.
  destruct (deref h a); eauto.
Qed.

Lemma merge_keys_resolves table parent child (r : addr) h0 keys :
  closed h0 → in_heap h0 parent → in_heap h0 child → length h0 ≤ r →
  nullish parent = false → nullish child = false →
  (∀ key pv cv, key ∈ keys → table key = Some MERGE →
     get_value h0 parent key = Ok pv → get_value h0 child key = Ok cv →
     is_Some (as_array h0 pv) ∧ is_Some (as_array h0 cv)) →
  ∀ h, length h0 ≤ length h → agree (length h0) h0 h →
       ∃ h', merge_keys table parent child r keys h = Ok (tt, h').
Proof.
  intros Hcl Hp Hc Hr Hnp Hnc.
  induction keys as [|key rest IH]; intros Harr h Hlen Hag; [by eexists|].
  rewrite merge_keys_cons.
  rewrite (get_value_agree _ h0 h parent key Hag Hp),
    (get_value_agree _ h0 h child key Hag Hc).
  destruct (get_value_total h0 parent key Hnp) as [pv Hpv].
  destruct (get_value_total h0 child key Hnc) as [cv Hcv].
  rewrite Hpv, Hcv.
  pose proof (get_value_below _ _ _ _ Hcl Hp Hpv) as Hbp.
  pose proof (get_value_below _ _ _ _ Hcl Hc Hcv) as Hbc.
  assert (∃ w h1, ApplyMergeStrategyToObjects key pv cv
            (GetBehaviorTypeOrDefault (table key)) h = Ok (w, h1)) as (w & h1 & Happ).
  { destruct (table key) as [[]|] eqn:Htab; simpl;
      rewrite ?ApplyMerge_REPLACE, ?ApplyMerge_SKIP; eauto.
    destruct (Harr key pv cv (list_elem_of_here _ _) Htab Hpv Hcv) as [[ps Hps] [cs Hcs]].
    rewrite <- (as_array_agree _ h0 h pv Hag Hbp) in Hps.
    rewrite <- (as_array_agree _ h0 h cv Hag Hbc) in Hcs.
    rewrite (ApplyMerge_MERGE_arrays _ _ _ _ _ _ Hps Hcs). eauto. }
  rewrite Happ. apply ApplyMerge_extends in Happ as [ext ->].
  destruct (Set__total r key w (h ++ ext)) as [h2 Hset]. rewrite Hset.
  apply IH.
  - intros k pv' cv' Hk. apply Harr. by apply list_elem_of_further.
  - rewrite (Set__length _ _ _ _ _ Hset), length_app. lia.
  - eapply agree_trans; [exact Hag|].
    eapply agree_trans; [by apply agree_app|].
    intros a Ha. apply (Set__agree _ _ _ _ _ Hset). lia.
Qed.

Lemma documents_merge_throws table h parent child pk ck key pv cv :
  own_keys h parent = Ok pk → own_keys h child = Ok ck → key ∈ pk ++ ck →
  table key = Some MERGE →
  in_heap h parent → in_heap h child → in_heap h pv → in_heap h cv →
  get_value h parent key = Ok pv → get_value h child key = Ok cv →
  as_array h pv = None ∨ as_array h cv = None →
  ∃ e, ApplyMergeStrategyToDocuments table parent child h = Throw e.
Proof.
  intros Hpk Hck Hin Htab Hp Hc Hpv Hcv Hgp Hgc Hbad.
  unfold ApplyMergeStrategyToDocuments, bind, Object_keys, read.
  rewrite Hpk, Hck. simpl.
  destruct (merge_keys_throws table parent child (length h)
              (Js.new_Set (pk ++ ck)) key pv cv h (h ++ [OObject []])) as [e ->]; try done.
  - rewrite length_app. lia.
  - by apply agree_app.
  - by apply Js.elem_of_new_Set.
  - by eexists.
Qed.

(** X4: when a merge resolves. Over a store without dangling references, the
    merge of two documents resolves exactly when neither document is
    undefined or null and, for every key of the union that the table binds
    to MERGE, the parent's and the child's values are both arrays; in every
    other case it rejects. *)
Theorem merge_resolves_iff table h parent child :
  closed h → in_heap h parent → in_heap h child →
  (∃ r h', ApplyMergeStrategyToDocuments table parent child h = Ok (r, h'))
  ↔ (nullish parent = false ∧ nullish child = false
     ∧ ∀ pk ck key pv cv,
         own_keys h parent = Ok pk → own_keys h child = Ok ck → key ∈ pk ++ ck →
         table key = Some MERGE →
         get_value h parent key = Ok pv → get_value h child key = Ok cv →
         is_Some (as_array h pv) ∧ is_Some (as_array h cv)).
Proof.
  intros Hcl Hp Hc. split.
  - intros (r & h' & Hrun).
    assert (∃ pk, own_keys h parent = Ok pk) as [pk Hpk].
    { revert Hrun. unfold ApplyMergeStrategyToDocuments, bind, Object_keys, read.
      destruct (own_keys h parent); [eauto|done]. }
    assert (∃ ck, own_keys h child = Ok ck) as [ck Hck].
    { revert Hrun. unfold ApplyMergeStrategyToDocuments, bind, Object_keys, read.
      rewrite Hpk. destruct (own_keys h child); [eauto|done]. }
    split; [by eapply own_keys_nullish|]. split; [by eapply own_keys_nullish|].
    intros pk' ck' key pv cv Hpk' Hck' Hin Htab Hpv Hcv.
    rewrite Hpk in Hpk'. rewrite Hck in Hck'. injection Hpk' as <-. injection Hck' as <-.
    destruct (as_array h pv) as [ps|] eqn:Hps; [destruct (as_array h cv) as [cs|] eqn:Hcs|].
    + split; by eexists.
    + destruct (documents_merge_throws table h parent child pk ck key pv cv
                  Hpk Hck Hin Htab Hp Hc (get_value_below _ _ _ _ Hcl Hp Hpv)
                  (get_value_below _ _ _ _ Hcl Hc Hcv) Hpv Hcv (or_intror Hcs)) as [e He].
      by rewrite He in Hrun.
    + destruct (documents_merge_throws table h parent child pk ck key pv cv
                  Hpk Hck Hin Htab Hp Hc (get_value_below _ _ _ _ Hcl Hp Hpv)
                  (get_value_below _ _ _ _ Hcl Hc Hcv) Hpv Hcv (or_introl Hps)) as [e He].
      by rewrite He in Hrun.
  - intros (Hnp & Hnc & Harr).
    destruct (own_keys_total h parent Hnp) as [pk Hpk].
    destruct (own_keys_total h child Hnc) as [ck Hck].
    unfold ApplyMergeStrategyToDocuments, bind, Object_keys, read, alloc, ret.
    rewrite Hpk, Hck. simpl.
    assert (∀ key pv cv, key ∈ Js.new_Set (pk ++ ck) → table key = Some MERGE →
              get_value h parent key = Ok pv → get_value h child key = Ok cv →
              is_Some (as_array h pv) ∧ is_Some (as_array h cv)) as Harr'.
    { intros key pv cv Hk. apply (Harr pk ck); try done.
      by apply (proj1 (Js.elem_of_new_Set _ _)). }
    destruct (merge_keys_resolves table parent child (length h) h
                (Js.new_Set (pk ++ ck)) Hcl Hp Hc (le_n _) Hnp Hnc Harr'
                (h ++ [OObject []])) as [h2 ->].
    + rewrite length_app. lia.
    + by apply agree_app.
    + eauto.
Qed.

Lemma merge_resolves_iff_witness :
  ∃ r h', ApplyMergeStrategyToDocuments scenario_table (VRef 0) (VRef 2) scenario_store
          = Ok (r, h').
Proof.
  apply (merge_resolves_iff scenario_table scenario_store (VRef 0) (VRef 2)).
  - exact closed_scenario_store.
  - simpl. lia.
  - simpl. lia.
  - split; [reflexivity|]. split; [reflexivity|].
    intros pk ck key pv cv _ _ _ Htab. unfold scenario_table in Htab.
    destruct (String.eqb_spec key "list") as [->|]; [|discriminate].
    intros Hpv Hcv. vm_compute in Hpv, Hcv.
    injection Hpv as <-. injection Hcv as <-. split; by eexists.
Defined.

Lemma filter_none {A} (P : A → Prop) `{!∀ x, Decision (P x)} (l : list A) :
  (∀ x, x ∈ l → ¬ P x) → filter P l = [].
Proof.
  induction l as [|x l IH]; intros Hno; [done|].
  rewrite filter_cons_False by (apply Hno, list_elem_of_here).
  apply IH. intros y Hy. by apply Hno, list_elem_of_further.
Qed.

(** X5: MERGE keeps a parent list as it is and only appends. When the
    parent array has no duplicates, the merged array is the parent array
    followed by the child's elements that the parent lacks, each once; when
    the child brings nothing new, the merged array is the parent array. *)
Theorem MERGE_appends_to_parent (h : heap) (key : string) (parentValue childValue : value)
    (ps cs : list value) :
  as_array h parentValue = Some ps → as_array h childValue = Some cs → NoDup ps →
  ∃ added,
    ApplyMergeStrategyToObjects key parentValue childValue MERGE h
    = Ok (VRef (S (length h)),
          h ++ [OArray (ps ++ added); OObject [(key, VRef (length h))]])
    ∧ NoDup added
    ∧ (∀ x, x ∈ added ↔ x ∈ cs ∧ x ∉ ps)
    ∧ ((∀ x, x ∈ cs → x ∈ ps) → added = []).
Proof.
  intros Hps Hcs Hnd. exists (Js.dedup_first (filter (λ x, x ∉ ps) cs)).
  split; [|split; [|split]].
  - rewrite (ApplyMerge_MERGE_arrays _ _ _ _ _ _ Hps Hcs).
    by rewrite Js.new_Set_dedup_first, Js.dedup_first_app, Js.dedup_first_NoDup.
  - apply Js.NoDup_dedup_first.
  - intros x. rewrite Js.elem_of_dedup_first, list_elem_of_filter. naive_solver.
  - intros Hsub. rewrite filter_none; [done|]. naive_solver.
Qed.

Lemma MERGE_appends_to_parent_witness :
  ApplyMergeStrategyToObjects "list" (VRef 1) (VRef 1) MERGE scenario_store
  = Ok (VRef 5, scenario_store ++ [OArray [VNumber 1; VNumber 2]; OObject [("list", VRef 4)]]).
Proof.
  destruct (MERGE_appends_to_parent scenario_store "list" (VRef 1) (VRef 1)
              [VNumber 1; VNumber 2] [VNumber 1; VNumber 2] eq_refl eq_refl)
    as (added & Hrun & _ & _ & Hnone).
  - repeat constructor; rewrite ?elem_of_cons, ?elem_of_nil; naive_solver.
  - rewrite Hnone in Hrun by done. exact Hrun.
Defined.

End Merge.

(* ================================================================== *)
(** * spec-configuration/containerFeaturesConfiguration (data model) *)
(* ================================================================== *)

Module FeaturesConfiguration.

(** Modelled from the spec: the types of
    spec-configuration/containerFeaturesConfiguration, whose source is not
    included; section 3 of the spec lists their fields, and
    containerFeatures.ts and the tests read them. *)
Inductive SourceInformation :=
| LocalCache
| GithubRepo (owner repo : string) (tag : option string) (isLatest : bool)
             (apiUri unauthenticatedUri : string)
| DirectTarball (tarballUri : string)
| FilePath (filePath : string) (isRelative : bool).

(** The value of one option: a boolean, a string, or [undefined]. *)
Inductive OptionValue :=
| OUndefined
| OBoolean (b : bool)
| OString (s : string).

(** The value a configuration gives a feature: a scalar or an object of
    option values ([undefined] when none is given). *)
Inductive FeatureValue :=
| FUndefined
| FBoolean (b : bool)
| FString (s : string)
| FOptions (options : list (string * OptionValue)).

Record Feature := {
  id : string;
  value : FeatureValue;
  buildArg : option string;
  containerEnv : option (list (string * string));
  included : bool;
}.

Record FeatureSet := {
  sourceInformation : SourceInformation;
  features : list Feature;
}.

Record FeaturesConfig := {
  featureSets : list FeatureSet;
  dstFolder : option string;
}.

#[global] Instance SourceInformation_eq_dec : EqDecision SourceInformation.
Proof. solve_decision. Defined.

#[global] Instance OptionValue_eq_dec : EqDecision OptionValue.
Proof. solve_decision. Defined.

#[global] Instance FeatureValue_eq_dec : EqDecision FeatureValue.
Proof. solve_decision. Defined.

#[global] Instance Feature_eq_dec : EqDecision Feature.
Proof. solve_decision. Defined.

#[global] Instance FeatureSet_eq_dec : EqDecision FeatureSet.
Proof. solve_decision. Defined.

End FeaturesConfiguration.

(* ================================================================== *)
(** * spec-node/containerFeatures.ts *)
(* ================================================================== *)

Module ContainerFeatures.
Import FeaturesConfiguration.

(** What [buildStageScripts[i][f.id]] holds for a feature. *)
Record BuildStageScripts := {
  hasAcquire : bool;
  hasConfigure : bool;
}.

(** The calls extendImage makes, in the order they are started: on the host
    ([cliHost]), on the docker CLI ([dockerPtyCLI] when [pty], else
    [dockerCLI]), on node-tar ([tar.c] with its working directory, the
    paths its filter leaves out and the paths it packs), and on three
    functions of the repository that are outside these sources
    (inspectDockerImage, createFeaturesTempFolder and
    generateFeaturesConfig), whose own work on the host is not traced. The
    lines written to the log are left out. *)
Inductive HostCall :=
| WriteFile (path content : string)
| Mkdirp (path : string)
| DockerCLI (pty : bool) (args : list string)
| IsFile (path : string)
| Exec (cmd : string) (args : list string) (cwd : string)
| TarCreate (cwd : string) (leftOut packed : list string)
| InspectDockerImage (imageName : string) (pullImageOnError : bool)
| CreateFeaturesTempFolder
| GenerateFeaturesConfig (dstFolder : string).

Record FeatureBuildInfo := {
  info_dstFolder : string;
  dockerfileContent : string;
  dockerfilePrefixContent : string;
  buildArgs : list (string * string);
  buildKitContexts : list (string * string);
}.

(** JavaScript's truthiness of a feature value and of an optional string. *)
Definition truthy_value (v : FeatureValue) : bool :=
  match v with
  | FUndefined => false
  | FBoolean b => b
  | FString s => negb (String.eqb s "")
  | FOptions _ => true
  end.

Definition truthy_string (s : option string) : bool :=
  match s with
  | None => false
  | Some s => negb (String.eqb s "")
  end.

(** A value spliced into a template literal. *)
Definition template_value (v : OptionValue) : string :=
  match v with
  | OUndefined => "undefined"
  | OBoolean true => "true"
  | OBoolean false => "false"
  | OString s => s
  end.

(** [for (const k in o)] with [o[k]] read in the body, and
    [Object.keys(o).map(k => ... o[k] ...)]. *)
Definition entries (o : list (string * string)) : list (string * string) :=
  (λ k, (k, default "undefined" (Js.get_property k o))) <$> o.*1.

Definition feature_path_separator (c : ascii) : bool :=
  Ascii.eqb c "/" || Ascii.eqb c "-".

Definition getFeatureSafeId (f : Feature) : string :=
  Js.toUpperCase (Js.map_chars (λ c, if feature_path_separator c then "_"%char else c) (id f)).

Definition TAB : string := String "009"%char "".

Definition buildContentImageName : string := "dev_container_feature_content_temp".

(** The files on the host, by path, and what a call does to them. The host
    abstraction is not part of the sources; its operations are read as
    Node's and tar's: [writeFile] creates or overwrites one file, [mkdirp]
    creates a directory that is missing and leaves an existing one as it
    is, [tar -x] unpacks the files of the archive ([unpacked], relative to
    the working directory) and removes none, and [isFile], the archive
    stream and a docker build change no file. What the functions outside
    the sources do to the files is not known: [None]. *)
Definition run_call (unpacked : list string) (files : list string) (c : HostCall)
    : option (list string) :=
  match c with
  | WriteFile path _ => Some (if decide (path ∈ files) then files else files ++ [path])
  | Exec _ _ cwd =>
      Some (files ++ filter (λ path, path ∉ files) ((λ p, cwd +:+ "/" +:+ p) <$> unpacked))
  | Mkdirp _ | IsFile _ | TarCreate _ _ _ | DockerCLI _ _ => Some files
  | InspectDockerImage _ _ | CreateFeaturesTempFolder | GenerateFeaturesConfig _ => None
  end.

Fixpoint run_calls (unpacked : list string) (files : list string) (calls : list HostCall)
    : option (list string) :=
  match calls with
  | [] => Some files
  | c :: rest => files' ← run_call unpacked files c; run_calls unpacked files' rest
  end.

(** The files on the host when the last call of [calls] is started. *)
Definition files_at_last_call (unpacked : list string) (files : list string)
    (calls : list HostCall) : option (list string) :=
  run_calls unpacked files (removelast calls).

Section Engine.

(** [includeAllConfiguredFeatures] of spec-utils/product. *)
Variable includeAllConfiguredFeatures : bool.
(** [getSourceInfoString], [getFeatureValueObject] and [getFeatureMainValue]
    of spec-configuration/containerFeaturesConfiguration. *)
Variable getSourceInfoString : SourceInformation → string.
Variable getFeatureValueObject : Feature → option (list (string * OptionValue)).
Variable getFeatureMainValue : Feature → OptionValue.
(** Node's [path.posix.join], and the host's [cliHost.path.join],
    [cliHost.tmpdir()], [process.stdin.isTTY] and [getFolderImageName(common)]. *)
Variable posix_join : list string → string.
Variable cliHost_path_join : list string → string.
Variable cliHost_tmpdir : string.
Variable stdin_isTTY : bool.
Variable folderImageName : string.
(** [multiStageBuildExploration] of
    spec-configuration/containerFeaturesConfiguration, the answers of
    [cliHost.isFile], [getContainerFeaturesFolder(common.extensionPath)],
    the folder createFeaturesTempFolder returns, and the [pullImageOnError]
    extendImage is called with. *)
Variable multiStageBuildExploration : bool.
Variable isFile : string → bool.
Variable srcFolder : string.
Variable featuresTempFolder : string.
Variable pullImageOnError : bool.

(** The filter [(includeAllConfiguredFeatures || f.included) && f.value]. *)
Definition selected (f : Feature) : bool :=
  (includeAllConfiguredFeatures || included f) && truthy_value (value f).

Definition containerEnv_lines (f : Feature) : list string :=
  (λ kv, "ENV " +:+ kv.1 +:+ "=" +:+ kv.2) <$> entries (default [] (containerEnv f)).

Definition generateContainerEnvs (featuresConfig : FeaturesConfig) : string :=
  foldl (λ result fSet,
           result +:+ Js.join Js.LF
             (foldl (λ envs f, envs ++ containerEnv_lines f) []
                    (filter (λ f, selected f) (features fSet))))
        "" (featureSets featuresConfig).

(** The filter of the build stages,
    [... && buildStageScripts[i][f.id]?.hasAcquire]: reading a property of
    [buildStageScripts[i]] throws ([None]) when the array has no entry [i]. *)
Definition acquires (buildStageScripts : list (list (string * BuildStageScripts)))
    (i : nat) (f : Feature) : option bool :=
  if selected f then
    scripts ← buildStageScripts !! i;
    Some (from_option hasAcquire false (Js.get_property (id f) scripts))
  else Some false.

Fixpoint filter_throwing {A} (p : A → option bool) (l : list A) : option (list A) :=
  match l with
  | [] => Some []
  | x :: rest =>
      b ← p x;
      kept ← filter_throwing p rest;
      Some (if b : bool then x :: kept else kept)
  end.

(** [[].concat(...featureSets.map((featureSet, i) =>
      featureSet.features.filter(acquires).map(stanza)))], the sets taken in
    order from index [i]. *)
Fixpoint stanzas_from (stanza : nat → FeatureSet → Feature → string)
    (buildStageScripts : list (list (string * BuildStageScripts)))
    (i : nat) (sets : list FeatureSet) : option (list string) :=
  match sets with
  | [] => Some []
  | featureSet :: rest =>
      kept ← filter_throwing (acquires buildStageScripts i) (features featureSet);
      others ← stanzas_from stanza buildStageScripts (S i) rest;
      Some (map (stanza i featureSet) kept ++ others)
  end.

Definition stanzas_of_acquiring_features
    (stanza : nat → FeatureSet → Feature → string)
    (featuresConfig : FeaturesConfig)
    (buildStageScripts : list (list (string * BuildStageScripts))) : option (list string) :=
  stanzas_from stanza buildStageScripts 0 (featureSets featuresConfig).

Definition stageName (featureSet : FeatureSet) (f : Feature) : string :=
  getSourceInfoString (sourceInformation featureSet) +:+ "_" +:+ id f.

Definition buildStage (contentSourceRootPath : string) (featureSet : FeatureSet) (f : Feature) : string :=
  let src := getSourceInfoString (sourceInformation featureSet) in
  "FROM mcr.microsoft.com/vscode/devcontainers/base:0-focal as " +:+ stageName featureSet f +:+ Js.LF
  +:+ "COPY --from=dev_containers_feature_content_source "
  +:+ posix_join [contentSourceRootPath; src; "features"; id f] +:+ " "
  +:+ posix_join ["/tmp/build-features"; src; "features"; id f] +:+ Js.LF
  +:+ "COPY --from=dev_containers_feature_content_source "
  +:+ posix_join [contentSourceRootPath; src; "common"] +:+ " "
  +:+ posix_join ["/tmp/build-features"; src; "common"] +:+ Js.LF
  +:+ "RUN cd " +:+ posix_join ["/tmp/build-features"; src; "features"; id f]
  +:+ " && set -a && . ./devcontainer-features.env && set +a && ./bin/acquire".

Definition featureBuildStages (featuresConfig : FeaturesConfig)
    (buildStageScripts : list (list (string * BuildStageScripts)))
    (contentSourceRootPath : string) : option (list string) :=
  stanzas_of_acquiring_features (λ _, buildStage contentSourceRootPath)
    featuresConfig buildStageScripts.

Definition getFeatureBuildStages (featuresConfig : FeaturesConfig)
    (buildStageScripts : list (list (string * BuildStageScripts)))
    (contentSourceRootPath : string) : option string :=
  Js.join (Js.LF +:+ Js.LF) <$>
    featureBuildStages featuresConfig buildStageScripts contentSourceRootPath.

(** [buildStageScripts[i][f.id]?.hasConfigure] in the copy stanza. *)
Definition configures (buildStageScripts : list (list (string * BuildStageScripts)))
    (i : nat) (f : Feature) : bool :=
  from_option hasConfigure false
    (buildStageScripts !! i ≫= Js.get_property (id f)).

Definition configureStep (featureSet : FeatureSet) (f : Feature) : string :=
  Js.LF +:+ "RUN cd "
  +:+ posix_join ["/tmp/build-features"; getSourceInfoString (sourceInformation featureSet);
                  "features"; id f]
  +:+ " && set -a && . ./devcontainer-features.env && set +a && ./bin/configure".

Definition copyStage (buildStageScripts : list (list (string * BuildStageScripts)))
    (i : nat) (featureSet : FeatureSet) (f : Feature) : string :=
  let featurePath :=
    posix_join ["/usr/local/devcontainer-features";
                getSourceInfoString (sourceInformation featureSet); id f] in
  "COPY --from=" +:+ stageName featureSet f +:+ " " +:+ featurePath +:+ " " +:+ featurePath
  +:+ (if configures buildStageScripts i f then configureStep featureSet f else "").

Definition copyFeatureBuildStages (featuresConfig : FeaturesConfig)
    (buildStageScripts : list (list (string * BuildStageScripts))) : option (list string) :=
  stanzas_of_acquiring_features (copyStage buildStageScripts) featuresConfig buildStageScripts.

Definition getCopyFeatureBuildStages (featuresConfig : FeaturesConfig)
    (buildStageScripts : list (list (string * BuildStageScripts))) : option string :=
  Js.join (Js.LF +:+ Js.LF) <$> copyFeatureBuildStages featuresConfig buildStageScripts.

Definition getFeatureEnvVariables (f : Feature) : list string :=
  let values := getFeatureValueObject f in
  let idSafe := getFeatureSafeId f in
  let variables := [] in
  let variables :=
    match values with
    | Some values =>
        variables
        ++ ((λ name, "_BUILD_ARG_" +:+ idSafe +:+ "_" +:+ Js.toUpperCase name +:+ "="
                     +:+ Js.DQUOTE
                     +:+ template_value (default OUndefined (Js.get_property name values))
                     +:+ Js.DQUOTE) <$> values.*1)
        ++ ["_BUILD_ARG_" +:+ idSafe +:+ "=true"]
    | None => variables
    end in
  if truthy_string (buildArg f)
  then variables ++ [default "" (buildArg f) +:+ "=" +:+ template_value (getFeatureMainValue f)]
  else variables.

(** The filter of the env file of a feature set,
    [... && !buildStageScripts[i][f.id]?.hasAcquire]. *)
Definition installs (buildStageScripts : list (list (string * BuildStageScripts)))
    (i : nat) (f : Feature) : option bool :=
  if selected f then
    scripts ← buildStageScripts !! i;
    Some (negb (from_option hasAcquire false (Js.get_property (id f) scripts)))
  else Some false.

(** The env file of a feature with an acquire script: its variables and the
    target path, next to [bin/acquire]. *)
Definition acquireEnvFile (dstFolder : string) (featureSet : FeatureSet) (f : Feature) : HostCall :=
  let featuresEnv :=
    Js.join Js.LF
      (getFeatureEnvVariables f
       ++ ["_BUILD_ARG_" +:+ getFeatureSafeId f +:+ "_TARGETPATH="
           +:+ posix_join ["/usr/local/devcontainer-features";
                           getSourceInfoString (sourceInformation featureSet); id f]]) in
  let envPath :=
    cliHost_path_join [dstFolder; getSourceInfoString (sourceInformation featureSet);
                       "features"; id f; "devcontainer-features.env"] in
  WriteFile envPath featuresEnv.

(** The callback of getContainerFeaturesBuildInfo that writes the env files
    of feature set [i] (lines 200-221): the file of the set, next to
    install.sh, then one file per feature with an acquire script. [None]:
    a filter throws, before any file of the set is written. *)
Definition writeFeatureSetEnvFiles (dstFolder : string)
    (buildStageScripts : list (list (string * BuildStageScripts)))
    (i : nat) (featureSet : FeatureSet) : option (list HostCall) :=
  installed ← filter_throwing (installs buildStageScripts i) (features featureSet);
  let featuresEnv := Js.join Js.LF (concat (getFeatureEnvVariables <$> installed)) in
  let envPath :=
    cliHost_path_join [dstFolder; getSourceInfoString (sourceInformation featureSet);
                       "devcontainer-features.env"] in
  acquired ← filter_throwing (acquires buildStageScripts i) (features featureSet);
  Some (WriteFile envPath featuresEnv :: (acquireEnvFile dstFolder featureSet <$> acquired)).

(** The reduce of lines 164-175 over the selected features of one feature
    set: for each feature the two [isFile] calls are started, and the
    answers are stored under [map[feature.id]]. Without
    [multiStageBuildExploration] nothing is probed and the map is empty. *)
Definition exploreBuildStageScripts (dstFolder : string) (featureSet : FeatureSet)
    : list HostCall * list (string * BuildStageScripts) :=
  if multiStageBuildExploration then
    foldl (λ binScripts feature,
             let binPath :=
               cliHost_path_join [dstFolder; getSourceInfoString (sourceInformation featureSet);
                                  "features"; id feature; "bin"] in
             let acquirePath := cliHost_path_join [binPath; "acquire"] in
             let configurePath := cliHost_path_join [binPath; "configure"] in
             (binScripts.1 ++ [IsFile acquirePath; IsFile configurePath],
              Js.set_property (id feature)
                {| hasAcquire := isFile acquirePath; hasConfigure := isFile configurePath |}
                binScripts.2))
          ([], []) (filter (λ f, selected f) (features featureSet))
  else ([], []).

(** The env files of all feature sets (lines 200-221), the sets taken in
    order from index [i]. *)
Fixpoint writeEnvFiles (dstFolder : string)
    (buildStageScripts : list (list (string * BuildStageScripts)))
    (i : nat) (sets : list FeatureSet) : option (list HostCall) :=
  match sets with
  | [] => Some []
  | featureSet :: rest =>
      calls ← writeFeatureSetEnvFiles dstFolder buildStageScripts i featureSet;
      others ← writeEnvFiles dstFolder buildStageScripts (S i) rest;
      Some (calls ++ others)
  end.

(** getContainerFeaturesBuildInfo: the calls it starts, in order, and the
    build information it returns ([None] for [null]). The bundled features
    are copied into [dstFolder] through tar (lines 131-160), the scripts
    are probed (162-175), the env files are written (200-221), and in
    legacy mode the content image is built (223-245). [dockerfile] stands
    for the filled Dockerfile template of lines 187-194, whose base text
    and feature layers come from functions outside the sources.
    [buildStageScripts] has an entry for every feature set, so the
    callbacks that write the env files do not throw here (lemma
    [writeEnvFiles_explored]). *)
Definition getContainerFeaturesBuildInfo (useBuildKit : bool) (featuresConfig : FeaturesConfig)
    (dockerfile baseName imageUser : string) : list HostCall * option FeatureBuildInfo :=
  if truthy_string (dstFolder featuresConfig) then
    let dstFolder := default "" (dstFolder featuresConfig) in
    let localCacheBuildFolderName := getSourceInfoString LocalCache in
    let copyBundled :=
      [Mkdirp (dstFolder +:+ "/" +:+ localCacheBuildFolderName);
       TarCreate srcFolder ["./Dockerfile"; "./devcontainer-features.json"] ["."];
       Exec "tar" ["--no-same-owner"; "-x"; "-f"; "-"]
         (dstFolder +:+ "/" +:+ localCacheBuildFolderName)] in
    let explored := exploreBuildStageScripts dstFolder <$> featureSets featuresConfig in
    let buildStageScripts := explored.*2 in
    let dockerfilePrefixContent :=
      (if useBuildKit then "# syntax=docker/dockerfile:1.4" else "") +:+ Js.LF
      +:+ "ARG _DEV_CONTAINERS_BASE_IMAGE=mcr.microsoft.com/vscode/devcontainers/base:buster"
      +:+ Js.LF in
    let envFiles :=
      default [] (writeEnvFiles dstFolder buildStageScripts 0 (featureSets featuresConfig)) in
    let buildContent :=
      if negb useBuildKit then
        let buildContentDockerfile :=
          Js.LF +:+ TAB +:+ "FROM scratch" +:+ Js.LF
          +:+ TAB +:+ "COPY . /tmp/build-features/" +:+ Js.LF +:+ TAB in
        let buildContentDockerfilePath := cliHost_path_join [dstFolder; "Dockerfile.buildContent"] in
        let buildContentArgs :=
          ["build"; "-t"; buildContentImageName; "-f"; buildContentDockerfilePath] ++ [dstFolder] in
        [WriteFile buildContentDockerfilePath buildContentDockerfile;
         DockerCLI stdin_isTTY buildContentArgs]
      else [] in
    (copyBundled ++ concat explored.*1 ++ envFiles ++ buildContent,
     Some {| info_dstFolder := dstFolder;
             dockerfileContent := dockerfile;
             dockerfilePrefixContent := dockerfilePrefixContent;
             buildArgs := [("_DEV_CONTAINERS_BASE_IMAGE", baseName);
                           ("_DEV_CONTAINERS_IMAGE_USER", imageUser);
                           ("_DEV_CONTAINERS_FEATURE_CONTENT_SOURCE", buildContentImageName)];
             buildKitContexts :=
               if useBuildKit then [("dev_containers_feature_content_source", dstFolder)]
               else [] |})
  else ([], None).

(** getExtendImageBuildInfo: createFeaturesTempFolder is awaited first, then
    generateFeaturesConfig is called with the folder; [featuresConfig]
    stands for its answer ([None] when there is none). *)
Definition getExtendImageBuildInfo (useBuildKit : bool) (featuresConfig : option FeaturesConfig)
    (dockerfile baseName imageUser : string) : list HostCall * option FeatureBuildInfo :=
  let generated := [CreateFeaturesTempFolder; GenerateFeaturesConfig featuresTempFolder] in
  match featuresConfig with
  | None => (generated, None)
  | Some featuresConfig =>
      let (calls, featureBuildInfo) :=
        getContainerFeaturesBuildInfo useBuildKit featuresConfig dockerfile baseName imageUser in
      (generated ++ calls, featureBuildInfo)
  end.

Definition emptyTempDir : string :=
  cliHost_path_join [cliHost_tmpdir; "__dev-containers-build-empty"].

(** The argument vector extendImage hands to the docker CLI. *)
Definition extendImage_args (useBuildKit : bool) (featureBuildInfo : FeatureBuildInfo)
    (updatedImageName dockerfilePath : string) : list string :=
  let args := [] in
  let args :=
    if useBuildKit then
      (args ++ ["buildx"; "build"; "--load"])
      ++ concat ((λ kv, ["--build-context"; kv.1 +:+ "=" +:+ kv.2])
                   <$> entries (buildKitContexts featureBuildInfo))
    else args ++ ["build"] in
  let args :=
    args ++ concat ((λ kv, ["--build-arg"; kv.1 +:+ "=" +:+ kv.2])
                      <$> entries (buildArgs featureBuildInfo)) in
  args ++ ["-t"; updatedImageName; "-f"; dockerfilePath; emptyTempDir].

(** extendImage: the calls it starts, in order, and the image name it
    returns. The image is inspected first (line 31); [imageUser] is the
    user of the inspected image, or [root]. The [mkdirp] of the context
    directory is started and not awaited (line 70). *)
Definition extendImage (useBuildKit : bool) (featuresConfig : option FeaturesConfig)
    (dockerfile imageName imageUser : string) : list HostCall * string :=
  let inspected := [InspectDockerImage imageName pullImageOnError] in
  let (calls, extendImageDetails) :=
    getExtendImageBuildInfo useBuildKit featuresConfig dockerfile imageName imageUser in
  match extendImageDetails with
  | None => (inspected ++ calls, imageName)
  | Some featureBuildInfo =>
      let dockerfilePath :=
        cliHost_path_join [info_dstFolder featureBuildInfo; "Dockerfile.extended"] in
      let updatedImageName :=
        (if Js.startsWith folderImageName imageName then imageName else folderImageName)
        +:+ "-features" in
      let args := extendImage_args useBuildKit featureBuildInfo updatedImageName dockerfilePath in
      (inspected ++ calls
       ++ [WriteFile dockerfilePath
             (dockerfilePrefixContent featureBuildInfo +:+ dockerfileContent featureBuildInfo);
           Mkdirp emptyTempDir;
           DockerCLI stdin_isTTY args],
       updatedImageName)
  end.

(** ** Build stages and copy stages *)

(** [buildStageScripts[i][f.id]?.hasAcquire], read without throwing. *)
Definition has_acquire (buildStageScripts : list (list (string * BuildStageScripts)))
    (i : nat) (f : Feature) : bool :=
  from_option hasAcquire false (buildStageScripts !! i ≫= Js.get_property (id f)).

(** The features that get a stage of their own, with the index and the set
    they come from, in the order of the configuration. *)
Fixpoint acquiring_from (buildStageScripts : list (list (string * BuildStageScripts)))
    (i : nat) (sets : list FeatureSet) : list (nat * FeatureSet * Feature) :=
  match sets with
  | [] => []
  | featureSet :: rest =>
      ((λ f, (i, featureSet, f)) <$>
         filter (λ f, selected f && has_acquire buildStageScripts i f) (features featureSet))
      ++ acquiring_from buildStageScripts (S i) rest
  end.

Lemma filter_throwing_acquires scripts i (l : list Feature) :
  i < length scripts →
  filter_throwing (acquires scripts i) l
  = Some (filter (λ f, selected f && has_acquire scripts i f) l).
Proof.
  intros Hi. destruct (lookup_lt_is_Some_2 scripts i Hi) as [s Hs].
  induction l as [|f l IH]; simpl; [done|].
  rewrite IH. simpl. rewrite filter_cons.
  unfold acquires, has_acquire. rewrite Hs. simpl.
  destruct (selected f); simpl; [|done].
  by destruct (from_option hasAcquire false (Js.get_property (id f) s)).
Qed.

Lemma stanzas_from_acquiring stanza scripts sets : ∀ i,
  i + length sets ≤ length scripts →
  stanzas_from stanza scripts i sets
  = Some ((λ x, stanza x.1.1 x.1.2 x.2) <$> acquiring_from scripts i sets).
Proof.
  induction sets as [|fs sets IH]; intros i Hlen; simpl in *; [done|].
  rewrite filter_throwing_acquires by lia. simpl.
  rewrite IH by lia. simpl.
  by rewrite fmap_app, <- list_fmap_compose.
Qed.

Lemma elem_of_acquiring_from scripts sets : ∀ i j fs f,
  (j, fs, f) ∈ acquiring_from scripts i sets ↔
  ∃ k, j = i + k ∧ sets !! k = Some fs ∧ f ∈ features fs
       ∧ selected f = true ∧ has_acquire scripts j f = true.
Proof.
  induction sets as [|fs0 sets IH]; intros i j fs f; simpl.
  - rewrite elem_of_nil. split; [done|]. by intros (k & _ & Hk & _).
  - rewrite elem_of_app, list_elem_of_fmap, IH. split.
    + intros [(f' & [= -> -> ->] & Hf)|(k & -> & Hk & Hf & Hsel & Hacq)].
      * apply list_elem_of_filter in Hf as [Hp Hf]. apply andb_prop_elim in Hp as [Hs Ha].
        exists 0. rewrite Nat.add_0_r. repeat split; try done; by apply Is_true_eq_true.
      * exists (S k). rewrite <- Nat.add_succ_comm. done.
    + intros ([|k] & -> & Hk & Hf & Hsel & Hacq); simpl in Hk.
      * left. injection Hk as ->. rewrite Nat.add_0_r in *. exists f. split; [done|].
        apply list_elem_of_filter. split; [|done]. rewrite Hsel, Hacq. done.
      * right. exists k. rewrite <- Nat.add_succ_comm in *. done.
Qed.






(** ** Environment variables of a feature *)

Lemma map_chars_compose (g1 g2 : ascii → ascii) s :
  Js.map_chars g1 (Js.map_chars g2 s) = Js.map_chars (λ c, g1 (g2 c)) s.
Proof. induction s as [|c s IH]; simpl; [done|]. by rewrite IH. Qed.

Lemma map_chars_ext g1 g2 s :
  (∀ c, g1 c = g2 c) → Js.map_chars g1 s = Js.map_chars g2 s.
Proof. intros Hg. induction s as [|c s IH]; simpl; [done|]. by rewrite Hg, IH. Qed.

Lemma map_chars_length g s : String.length (Js.map_chars g s) = String.length s.
Proof. induction s as [|c s IH]; simpl; [done|]. by rewrite IH. Qed.

Lemma map_chars_get g s : ∀ i, String.get i (Js.map_chars g s) = g <$> String.get i s.
Proof.
  induction s as [|c s IH]; intros i; simpl; [done|].
  destruct i; simpl; [done|]. apply IH.
Qed.

Lemma safe_char_shape (c : ascii) :
  let d := Js.upper_ascii (if feature_path_separator c then "_"%char else c) in
  d ≠ "/"%char ∧ d ≠ "-"%char ∧ ((97 <=? N_of_ascii d) && (N_of_ascii d <=? 122))%N = false.
Proof.
  destruct c as [[] [] [] [] [] [] [] []]; vm_compute; repeat split; discriminate.
Qed.

Lemma get_property_NoDup {V} (o : list (string * V)) k v :
  NoDup o.*1 → (k, v) ∈ o → Js.get_property k o = Some v.
Proof.
  induction o as [|[k' v'] o IH]; simpl; intros Hnd Hin; [by apply elem_of_nil in Hin|].
  apply NoDup_cons in Hnd as [Hk' Hnd].
  apply elem_of_cons in Hin as [[= -> ->]|Hin].
  - by rewrite String.eqb_refl.
  - destruct (String.eqb_spec k k') as [->|Hne]; [|by apply IH].
    destruct Hk'. apply list_elem_of_fmap. by exists (k', v).
Qed.

Lemma entries_NoDup (o : list (string * string)) : NoDup o.*1 → entries o = o.
Proof.
  intros Hnd. unfold entries. rewrite <- list_fmap_compose.
  rewrite <- (list_fmap_id o) at 2. apply Forall_fmap_ext_1, Forall_forall.
  intros [k v] Hin. simpl. by rewrite (get_property_NoDup o k v).
Qed.

(** C7. For a feature with ASCII id and option names whose value object is
    [values] (an object, so with distinct option names),
    getFeatureEnvVariables lists one line
    [_BUILD_ARG_<SAFE_ID>_<OPT>="<value>"] per option in the order of the
    options, the option name in upper case and the value between double
    quotes, then the flag [_BUILD_ARG_<SAFE_ID>=true], then
    [<buildArg>=<mainValue>] exactly when the feature has a non-empty
    buildArg. A value is spliced in as a template literal does it: a
    string as it is, a boolean as [true] or [false], and a missing value as
    [undefined]. SAFE_ID is the feature id with '/' and '-' replaced by
    '_' and the letters [a] to [z] put in upper case: it has the length of
    the id and holds no '/', no '-' and no lower-case letter. *)
Theorem feature_env_variables_layout (f : Feature) (values : list (string * OptionValue)) :
  getFeatureValueObject f = Some values →
  NoDup values.*1 →
  Js.is_ascii (id f) = true →
  Forall (λ opt, Js.is_ascii opt.1 = true) values →
  let upper := λ c : ascii,
    if ((97 <=? N_of_ascii c) && (N_of_ascii c <=? 122))%N
    then ascii_of_N (N_of_ascii c - 32) else c in
  let safe := λ c : ascii,
    if Ascii.eqb c "/" || Ascii.eqb c "-" then "_"%char else upper c in
  let text := λ v : OptionValue,
    match v with
    | OUndefined => "undefined"
    | OBoolean true => "true"
    | OBoolean false => "false"
    | OString s => s
    end in
  let quote := String "034" "" in
  let SAFE_ID := Js.map_chars safe (id f) in
  getFeatureEnvVariables f
  = ((λ opt, "_BUILD_ARG_" +:+ SAFE_ID +:+ "_" +:+ Js.map_chars upper opt.1
             +:+ "=" +:+ quote +:+ text opt.2 +:+ quote) <$> values)
    ++ ["_BUILD_ARG_" +:+ SAFE_ID +:+ "=true"]
    ++ match buildArg f with
       | Some (String c name) => [String c name +:+ "=" +:+ text (getFeatureMainValue f)]
       | _ => []
       end
  ∧ String.length SAFE_ID = String.length (id f)
  ∧ ∀ i c, String.get i SAFE_ID = Some c →
      c ≠ "/"%char ∧ c ≠ "-"%char ∧ ((97 <=? N_of_ascii c) && (N_of_ascii c <=? 122))%N = false.
Proof.
  intros Hvalues Hnd _ _ upper safe text quote SAFE_ID.
  assert (∀ c, Js.upper_ascii (if feature_path_separator c then "_"%char else c) = safe c)
    as Hchar.
  { intros c. unfold safe, feature_path_separator.
    by destruct (Ascii.eqb c "/" || Ascii.eqb c "-"). }
  assert (getFeatureSafeId f = SAFE_ID) as Hsafe.
  { unfold getFeatureSafeId, Js.toUpperCase. rewrite map_chars_compose.
    by apply map_chars_ext. }
  split; [|split].
  - unfold getFeatureEnvVariables. rewrite Hvalues, Hsafe. simpl.
    assert (((λ name, "_BUILD_ARG_" +:+ SAFE_ID +:+ "_" +:+ Js.toUpperCase name
                      +:+ "=" +:+ Js.DQUOTE
                      +:+ template_value (default OUndefined (Js.get_property name values))
                      +:+ Js.DQUOTE) <$> values.*1)
            = (λ opt, "_BUILD_ARG_" +:+ SAFE_ID +:+ "_" +:+ Js.map_chars upper opt.1
                      +:+ "=" +:+ quote +:+ text opt.2 +:+ quote) <$> values)
      as ->.
    { rewrite <- list_fmap_compose. apply Forall_fmap_ext_1, Forall_forall.
      intros [k v] Hin. simpl. by rewrite (get_property_NoDup values k v). }
    destruct (buildArg f) as [[|c name]|]; simpl; [done| |done].
    by rewrite <- app_assoc.
  - apply map_chars_length.
  - intros i c. unfold SAFE_ID. rewrite map_chars_get.
    destruct (String.get i (id f)) as [c0|]; simpl; [|done].
    intros [= <-]. rewrite <- Hchar. apply safe_char_shape.
Qed.

(** ** The calls of extendImage *)

Lemma filter_throwing_installs scripts i (l : list Feature) :
  i < length scripts →
  filter_throwing (installs scripts i) l
  = Some (filter (λ f, selected f && negb (has_acquire scripts i f)) l).
Proof.
  intros Hi. destruct (lookup_lt_is_Some_2 scripts i Hi) as [s Hs].
  induction l as [|f l IH]; simpl; [done|].
  rewrite IH. simpl. rewrite filter_cons.
  unfold installs, has_acquire. rewrite Hs. simpl.
  destruct (selected f); simpl; [|done].
  by destruct (from_option hasAcquire false (Js.get_property (id f) s)).
Qed.

(** The calls made for the files of the host by this file: all but those of
    the functions outside the sources. *)
Definition traced (c : HostCall) : Prop :=
  match c with
  | InspectDockerImage _ _ | CreateFeaturesTempFolder | GenerateFeaturesConfig _ => False
  | _ => True
  end.

Lemma run_call_keeps unpacked files c path :
  traced c → path ∈ files →
  ∃ files', run_call unpacked files c = Some files' ∧ path ∈ files'.
Proof.
  intros Hc Hpath. destruct c; simpl in *; try done; eexists; (split; [reflexivity|]); try done.
  - destruct (decide (_ ∈ files)); [done|]. apply elem_of_app. by left.
  - apply elem_of_app. by left.
Qed.

Lemma run_calls_keep unpacked calls path : ∀ files,
  Forall traced calls → path ∈ files →
  ∃ files', run_calls unpacked files calls = Some files' ∧ path ∈ files'.
Proof.
  induction calls as [|c calls IH]; intros files Hall Hpath; simpl; [by eexists|].
  apply Forall_cons in Hall as [Hc Hall].
  destruct (run_call_keeps unpacked files c path Hc Hpath) as (files1 & -> & Hpath1). simpl.
  by apply IH.
Qed.

Lemma exploreBuildStageScripts_probes dst featureSet :
  Forall (λ c, ∃ path, c = IsFile path) (exploreBuildStageScripts dst featureSet).1.
Proof.
  unfold exploreBuildStageScripts. destruct multiStageBuildExploration; [|by constructor].
  generalize (filter (λ f, selected f) (features featureSet)). intros l.
  assert (∀ acc : list HostCall * list (string * BuildStageScripts),
            Forall (λ c, ∃ path, c = IsFile path) acc.1 →
            Forall (λ c, ∃ path, c = IsFile path)
              (foldl (λ binScripts feature,
                 let binPath :=
                   cliHost_path_join [dst; getSourceInfoString (sourceInformation featureSet);
                                      "features"; id feature; "bin"] in
                 let acquirePath := cliHost_path_join [binPath; "acquire"] in
                 let configurePath := cliHost_path_join [binPath; "configure"] in
                 (binScripts.1 ++ [IsFile acquirePath; IsFile configurePath],
                  Js.set_property (id feature)
                    {| hasAcquire := isFile acquirePath; hasConfigure := isFile configurePath |}
                    binScripts.2)) acc l).1) as Hfold.
  { induction l as [|f l IH]; intros acc Hacc; simpl; [done|].
    apply IH. simpl. apply Forall_app. split; [done|].
    repeat constructor; by eexists. }
  apply Hfold. by constructor.
Qed.

Lemma explored_probes dst (sets : list FeatureSet) :
  Forall (λ c, ∃ path, c = IsFile path) (concat (exploreBuildStageScripts dst <$> sets).*1).
Proof.
  induction sets as [|fs sets IH]; simpl; [by constructor|].
  apply Forall_app. split; [apply exploreBuildStageScripts_probes|done].
Qed.

Lemma writeEnvFiles_writes dst scripts sets : ∀ i,
  i + length sets ≤ length scripts →
  ∃ calls, writeEnvFiles dst scripts i sets = Some calls
           ∧ Forall (λ c, ∃ path content, c = WriteFile path content) calls.
Proof.
  induction sets as [|fs sets IH]; intros i Hlen; simpl in *; [by eexists|].
  unfold writeFeatureSetEnvFiles.
  rewrite filter_throwing_installs, filter_throwing_acquires by lia. simpl.
  destruct (IH (S i)) as (others & -> & Hothers); [lia|]. simpl.
  eexists. split; [reflexivity|].
  constructor; [by eexists _, _|]. apply Forall_app. split; [|done].
  apply Forall_fmap, Forall_forall. intros f _. by eexists _, _.
Qed.

(** The scripts are explored for every feature set, so the env files of
    every set are written. *)
Lemma writeEnvFiles_explored dst (sets : list FeatureSet) :
  ∃ calls, writeEnvFiles dst (exploreBuildStageScripts dst <$> sets).*2 0 sets = Some calls
           ∧ Forall (λ c, ∃ path content, c = WriteFile path content) calls.
Proof. apply writeEnvFiles_writes. by rewrite !length_fmap. Qed.

(** C8 (the calls of extendImage, for every features configuration with a
    dstFolder). After the image is inspected and generateFeaturesConfig has
    answered, extendImage copies the bundled features with tar, probes the
    scripts and writes the env files. With BuildKit the builder is then
    run once, with [buildx build --load --build-context
    dev_containers_feature_content_source=<dstFolder>]. Without, the
    content image is built first, with [build], from Dockerfile.buildContent
    ([FROM scratch], [COPY . /tmp/build-features/]), and the main build is
    run with [build]. In both modes the context of the main build is
    [<tmpdir>/__dev-containers-build-empty]; the only call on it is a
    [mkdirp], which leaves an existing directory as it is: every file that
    is under the directory when generateFeaturesConfig has answered is
    still there when the main build is started. The directory is not
    guaranteed to be empty, although the comment in the code says that an
    empty directory is set as the context. *)
Theorem extendImage_context_directory_is_not_emptied (useBuildKit : bool)
    (featuresConfig : FeaturesConfig) (dst dockerfile imageName imageUser : string) :
  dstFolder featuresConfig = Some dst → dst ≠ "" →
  let contextDirectory := cliHost_path_join [cliHost_tmpdir; "__dev-containers-build-empty"] in
  let dockerfilePath := cliHost_path_join [dst; "Dockerfile.extended"] in
  let buildContentDockerfilePath := cliHost_path_join [dst; "Dockerfile.buildContent"] in
  let updatedImageName :=
    (if Js.startsWith folderImageName imageName then imageName else folderImageName)
    +:+ "-features" in
  let localCache := dst +:+ "/" +:+ getSourceInfoString LocalCache in
  ∃ probes envFiles,
    let calls :=
      [Mkdirp localCache;
       TarCreate srcFolder ["./Dockerfile"; "./devcontainer-features.json"] ["."];
       Exec "tar" ["--no-same-owner"; "-x"; "-f"; "-"] localCache]
      ++ probes ++ envFiles
      ++ (if useBuildKit then []
          else [WriteFile buildContentDockerfilePath
                  (String "010" (String "009" "FROM scratch"
                   +:+ String "010" (String "009" "COPY . /tmp/build-features/"
                   +:+ String "010" (String "009" ""))));
                DockerCLI stdin_isTTY
                  ["build"; "-t"; "dev_container_feature_content_temp";
                   "-f"; buildContentDockerfilePath; dst]])
      ++ [WriteFile dockerfilePath
            ((if useBuildKit then "# syntax=docker/dockerfile:1.4" else "") +:+ String "010" ""
             +:+ "ARG _DEV_CONTAINERS_BASE_IMAGE=mcr.microsoft.com/vscode/devcontainers/base:buster"
             +:+ String "010" "" +:+ dockerfile);
          Mkdirp contextDirectory;
          DockerCLI stdin_isTTY
            ((if useBuildKit
              then ["buildx"; "build"; "--load"; "--build-context";
                    "dev_containers_feature_content_source=" +:+ dst]
              else ["build"])
             ++ ["--build-arg"; "_DEV_CONTAINERS_BASE_IMAGE=" +:+ imageName;
                 "--build-arg"; "_DEV_CONTAINERS_IMAGE_USER=" +:+ imageUser;
                 "--build-arg";
                 "_DEV_CONTAINERS_FEATURE_CONTENT_SOURCE=dev_container_feature_content_temp";
                 "-t"; updatedImageName; "-f"; dockerfilePath; contextDirectory])] in
    extendImage useBuildKit (Some featuresConfig) dockerfile imageName imageUser
    = ([InspectDockerImage imageName pullImageOnError;
        CreateFeaturesTempFolder;
        GenerateFeaturesConfig featuresTempFolder] ++ calls,
       updatedImageName)
    ∧ Forall (λ c, ∃ path, c = IsFile path) probes
    ∧ Forall (λ c, ∃ path content, c = WriteFile path content) envFiles
    ∧ ∀ unpacked files path,
        path ∈ filter (λ p, String.prefix (contextDirectory +:+ "/") p) files →
        ∃ files', files_at_last_call unpacked files calls = Some files'
                  ∧ path ∈ filter (λ p, String.prefix (contextDirectory +:+ "/") p) files'.
Proof.
  intros Hdst Hne contextDirectory dockerfilePath buildContentDockerfilePath
    updatedImageName localCache.
  assert (String.eqb dst "" = false) as Hnb by (by apply String.eqb_neq).
  destruct (writeEnvFiles_explored dst (featureSets featuresConfig))
    as (envFiles & HenvFiles & Hwrites).
  pose proof (explored_probes dst (featureSets featuresConfig)) as Hprobes.
  exists (concat (exploreBuildStageScripts dst <$> featureSets featuresConfig).*1), envFiles.
  intros calls. split; [|split; [done|split; [done|]]].
  - unfold extendImage, getExtendImageBuildInfo, getContainerFeaturesBuildInfo.
    rewrite Hdst. simpl. rewrite Hnb. simpl. rewrite HenvFiles. simpl.
    unfold calls. destruct useBuildKit; simpl; rewrite <- ?app_assoc; reflexivity.
  - intros unpacked files path [Hunder Hpath]%list_elem_of_filter.
    destruct (run_calls_keep unpacked (removelast calls) path files) as (files' & Hrun & Hin);
      [|done|exists files'; split; [done|by apply list_elem_of_filter]].
    unfold calls.
    rewrite !app_assoc.
    change [WriteFile dockerfilePath ?c; Mkdirp contextDirectory; ?d]
      with ([WriteFile dockerfilePath c; Mkdirp contextDirectory] ++ [d]).
    rewrite app_assoc, removelast_last.
    repeat apply Forall_app_2; try (repeat constructor; done).
    + eapply Forall_impl; [exact Hprobes|]. by intros c [path' ->].
    + eapply Forall_impl; [exact Hwrites|]. by intros c (path' & content & ->).
    + destruct useBuildKit; repeat constructor; done.
Qed.

(** ** More on the container environment, the stages and the env files *)

Lemma foldl_app_concat {A B} (g : A → list B) (l : list A) : ∀ acc,
  foldl (λ envs f, envs ++ g f) acc l = acc ++ concat (g <$> l).
Proof.
  induction l as [|x l IH]; intros acc; simpl.
  - by rewrite app_nil_r.
  - by rewrite IH, app_assoc.
Qed.

Lemma elem_of_concat_fmap {A B} (g : A → list B) (l : list A) (y : B) :
  y ∈ concat (g <$> l) ↔ ∃ x, x ∈ l ∧ y ∈ g x.
Proof.
  induction l as [|x l IH]; simpl.
  - rewrite elem_of_nil. split; [done|]. intros (x & Hx & _). by apply elem_of_nil in Hx.
  - rewrite elem_of_app, IH. split.
    + intros [Hy|(x' & Hx' & Hy)]; [exists x|exists x']; split; try done.
      * apply list_elem_of_here.
      * by apply list_elem_of_further.
    + intros (x' & [->|Hx']%elem_of_cons & Hy); [by left|right; eauto].
Qed.

(** X6: with one feature set, generateContainerEnvs gives the [ENV] lines of
    the selected features joined by line feeds: a line is there exactly for
    each entry of the containerEnv of a selected feature, and splitting the
    text at the line feeds gives the lines back (when there is one, and
    none holds a line feed). *)
Theorem env_lines_of_one_set (featureSet : FeatureSet) (dst : option string) :
  let lines :=
    concat (containerEnv_lines <$> filter (λ f, selected f) (features featureSet)) in
  let text := generateContainerEnvs {| featureSets := [featureSet]; dstFolder := dst |} in
  text = Js.join Js.LF lines
  ∧ (lines ≠ [] → Forall (λ line, JsText.lacks "010" line = true) lines →
     Js.split "010" text = lines)
  ∧ ∀ line, line ∈ lines ↔
      ∃ f kv, f ∈ features featureSet ∧ selected f = true
              ∧ kv ∈ entries (default [] (containerEnv f))
              ∧ line = "ENV " +:+ kv.1 +:+ "=" +:+ kv.2.
Proof.
  intros lines text.
  assert (text = Js.join Js.LF lines) as Htext.
  { unfold text, generateContainerEnvs. simpl. by rewrite foldl_app_concat. }
  split; [done|]. split.
  - intros Hne Hlf. rewrite Htext. by apply JsText.split_join.
  - intros line. unfold lines. rewrite elem_of_concat_fmap. split.
    + intros (f & [Hsel Hf]%list_elem_of_filter & Hline).
      unfold containerEnv_lines in Hline. apply list_elem_of_fmap in Hline as (kv & -> & Hkv).
      exists f, kv. repeat split; try done. by apply Is_true_eq_true.
    + intros (f & kv & Hf & Hsel & Hkv & ->). exists f. split.
      * apply list_elem_of_filter. split; [by rewrite Hsel|done].
      * unfold containerEnv_lines. apply list_elem_of_fmap. by exists kv.
Qed.

Lemma filter_throwing_None {A} (p : A → option bool) (l : list A) x :
  x ∈ l → p x = None → filter_throwing p l = None.
Proof.
  intros Hx Hp. induction l as [|y l IH]; [by apply elem_of_nil in Hx|]. simpl.
  apply elem_of_cons in Hx as [<-|Hx]; [by rewrite Hp|].
  rewrite IH by done. by destruct (p y).
Qed.

Lemma stanzas_from_None stanza scripts (featureSet : FeatureSet) f sets : ∀ j k,
  sets !! k = Some featureSet → scripts !! (j + k) = None →
  f ∈ features featureSet → selected f = true →
  stanzas_from stanza scripts j sets = None.
Proof.
  induction sets as [|fs sets IH]; intros j k Hk Hnone Hf Hsel; [done|]. simpl.
  destruct k as [|k]; simpl in Hk.
  - injection Hk as ->. rewrite Nat.add_0_r in Hnone.
    assert (filter_throwing (acquires scripts j) (features featureSet) = None) as ->; [|done].
    apply (filter_throwing_None _ _ f); [done|].
    unfold acquires. by rewrite Hsel, Hnone.
  - rewrite (IH (S j) k); [|done|by rewrite Nat.add_succ_comm|done..].
    by destruct (filter_throwing _ _).
Qed.

(** X7: the stage functions read [buildStageScripts[i]] for every selected
    feature of set [i]: when the array has no entry for a feature set that
    holds a selected feature, both getFeatureBuildStages and
    getCopyFeatureBuildStages throw. *)
Theorem stages_throw_without_scripts_entry (featuresConfig : FeaturesConfig)
    (buildStageScripts : list (list (string * BuildStageScripts)))
    (contentSourceRootPath : string) (i : nat) (featureSet : FeatureSet) (f : Feature) :
  featureSets featuresConfig !! i = Some featureSet → buildStageScripts !! i = None →
  f ∈ features featureSet → selected f = true →
  getFeatureBuildStages featuresConfig buildStageScripts contentSourceRootPath = None
  ∧ getCopyFeatureBuildStages featuresConfig buildStageScripts = None.
Proof.
  intros Hi Hnone Hf Hsel.
  unfold getFeatureBuildStages, getCopyFeatureBuildStages, featureBuildStages,
    copyFeatureBuildStages, stanzas_of_acquiring_features.
  by rewrite !(stanzas_from_None _ _ featureSet f _ 0 i).
Qed.

(** X8: without acquire scripts there are no stages. When buildStageScripts
    has an entry for every feature set and no selected feature has an
    acquire script (as when the scripts are not probed and every entry is
    empty), both functions return the empty text. *)
Theorem no_stages_without_acquire (featuresConfig : FeaturesConfig)
    (buildStageScripts : list (list (string * BuildStageScripts)))
    (contentSourceRootPath : string) :
  length (featureSets featuresConfig) ≤ length buildStageScripts →
  (∀ i featureSet f,
     featureSets featuresConfig !! i = Some featureSet → f ∈ features featureSet →
     selected f = true → has_acquire buildStageScripts i f = false) →
  getFeatureBuildStages featuresConfig buildStageScripts contentSourceRootPath = Some ""
  ∧ getCopyFeatureBuildStages featuresConfig buildStageScripts = Some "".
Proof.
  intros Hlen Hno.
  assert (acquiring_from buildStageScripts 0 (featureSets featuresConfig) = []) as Hnil.
  { destruct (acquiring_from _ _ _) as [|[[i fs] f] l] eqn:Heq; [done|].
    assert ((i, fs, f) ∈ acquiring_from buildStageScripts 0 (featureSets featuresConfig))
      as Hin by (rewrite Heq; apply list_elem_of_here).
    apply elem_of_acquiring_from in Hin as (k & -> & Hk & Hf & Hsel & Hacq).
    simpl in Hacq. by rewrite (Hno _ _ _ Hk Hf Hsel) in Hacq. }
  unfold getFeatureBuildStages, getCopyFeatureBuildStages, featureBuildStages,
    copyFeatureBuildStages, stanzas_of_acquiring_features.
  rewrite !stanzas_from_acquiring by (simpl; lia). by rewrite Hnil.
Qed.



Lemma last_three {A} (l : list A) (a b c d : A) : List.last (l ++ [a; b; c]) d = c.
Proof.
  replace (l ++ [a; b; c]) with ((l ++ [a; b]) ++ [c]) by (by rewrite <- app_assoc).
  apply last_last.
Qed.

Lemma prefix_app_same (p s : string) : String.prefix p (p +:+ s) = true.
Proof.
  induction p as [|c p IH]; [by destruct s|].
  rewrite JsText.cons_app. cbn -[ascii_dec]. by destruct (ascii_dec c c).
Qed.

Lemma prefix_app_more (p a s : string) :
  String.prefix p a = true → String.prefix p (a +:+ s) = true.
Proof.
  revert a. induction p as [|c p IH]; intros a; [by destruct (a +:+ s)|].
  destruct a as [|x a]; [done|]. rewrite JsText.cons_app.
  cbn -[ascii_dec]. destruct (ascii_dec c x); [apply IH|done].
Qed.

(** X11: the name of the extended image. When extendImage builds, the image
    it returns is tagged [<base>-features], where the base is the given
    image name if that starts with the folder image name and the folder
    image name otherwise: the new name starts with the folder image name,
    differs from the given image name, and is the tag handed to the
    builder after [-t]. *)
Theorem extended_image_name (useBuildKit : bool) (featuresConfig : FeaturesConfig)
    (dockerfile imageName imageUser : string) :
  truthy_string (dstFolder featuresConfig) = true →
  let run := extendImage useBuildKit (Some featuresConfig) dockerfile imageName imageUser in
  run.2 = (if Js.startsWith folderImageName imageName then imageName else folderImageName)
          +:+ "-features"
  ∧ Js.startsWith folderImageName run.2 = true
  ∧ run.2 ≠ imageName
  ∧ ∃ pty before after, List.last run.1 (Mkdirp "") = DockerCLI pty (before ++ ["-t"; run.2] ++ after).
Proof.
  intros Hdst run.
  assert (run.2 = (if Js.startsWith folderImageName imageName then imageName
                   else folderImageName) +:+ "-features") as Hname.
  { unfold run, extendImage, getExtendImageBuildInfo, getContainerFeaturesBuildInfo.
    by rewrite Hdst. }
  split; [done|]. split; [|split].
  - rewrite Hname. unfold Js.startsWith.
    destruct (String.prefix folderImageName imageName) eqn:Hp.
    + by apply prefix_app_more.
    + apply prefix_app_same.
  - rewrite Hname. unfold Js.startsWith.
    destruct (String.prefix folderImageName imageName) eqn:Hp.
    + intros Heq. apply (f_equal String.length) in Heq.
      rewrite JsText.length_app_string in Heq. simpl in Heq. lia.
    + intros Heq. rewrite <- Heq, prefix_app_same in Hp. done.
  - unfold run, extendImage, getExtendImageBuildInfo, getContainerFeaturesBuildInfo.
    rewrite Hdst. cbn [fst snd]. rewrite app_assoc, last_three.
    destruct useBuildKit; simpl.
    + by eexists _, [_; _; _; _; _; _; _; _; _; _; _], [_; _; _].
    + by eexists _, [_; _; _; _; _; _; _], [_; _; _].
Qed.

End Engine.

(** ** Concrete configurations *)

(** Stand-ins for the functions of the environment in the examples below:
    plain joining with '/', and the source-info strings the tests fix for
    the bundled and the GitHub sources. *)
Definition sample_join : list string → string := Js.join "/".

Definition sample_getSourceInfoString (s : SourceInformation) : string :=
  match s with
  | LocalCache => "local-cache"
  | GithubRepo owner repo tag _ _ _ =>
      "github-" +:+ owner +:+ "-" +:+ repo +:+ "-" +:+ default "latest" tag
  | DirectTarball _ => "tarball"
  | FilePath _ _ => "file-path"
  end.

Definition sample_getFeatureValueObject (f : Feature) : option (list (string * OptionValue)) :=
  match value f with
  | FOptions options => Some options
  | _ => None
  end.

Definition env_feature (name key val : string) : Feature :=
  {| id := name; value := FString "latest"; buildArg := None;
     containerEnv := Some [(key, val)]; included := true |}.

Definition octocat : SourceInformation :=
  GithubRepo "octocat" "myfeatures" None true
    "https://api.github.com/repos/octocat/myfeatures/releases/latest"
    "https://github.com/octocat/myfeatures/releases/latest/download/devcontainer-features.tgz".

(** Two feature sets, each with one included feature that sets one
    container environment variable. *)
Definition two_sets_config : FeaturesConfig :=
  {| featureSets :=
       [ {| sourceInformation := LocalCache; features := [env_feature "first" "A" "1"] |};
         {| sourceInformation := octocat; features := [env_feature "second" "B" "2"] |} ];
     dstFolder := Some "/tmp/dst" |}.


(** C5 (evaluation of the code at two feature sets with one entry each).
    The lines of one feature set are joined by line feeds, but the text of a
    set is appended to that of the sets before it with nothing between: the
    two entries come out as the single line [ENV A=1ENV B=2]. *)
Theorem env_lines_of_two_sets_run_together (includeAllConfiguredFeatures : bool) :
  generateContainerEnvs includeAllConfiguredFeatures two_sets_config = "ENV A=1ENV B=2"
  ∧ Js.split "010" (generateContainerEnvs includeAllConfiguredFeatures two_sets_config)
    = ["ENV A=1ENV B=2"]
  ∧ containerEnv_lines (env_feature "first" "A" "1")
    ++ containerEnv_lines (env_feature "second" "B" "2") = ["ENV A=1"; "ENV B=2"].
Proof. by destruct includeAllConfiguredFeatures. Qed.


Definition options_feature : Feature :=
  {| id := "my-tools/docker-in-docker";
     value := FOptions [("version", OString "latest"); ("moby", OBoolean true)];
     buildArg := Some "DOCKER_VERSION"; containerEnv := None; included := true |}.

(** C7 at a feature with two options and a buildArg. *)
Lemma feature_env_variables_layout_witness :
  getFeatureEnvVariables sample_getFeatureValueObject (λ _, OString "latest") options_feature
  = [ "_BUILD_ARG_MY_TOOLS_DOCKER_IN_DOCKER_VERSION=" +:+ String "034" "latest"
        +:+ String "034" "";
      "_BUILD_ARG_MY_TOOLS_DOCKER_IN_DOCKER_MOBY=" +:+ String "034" "true"
        +:+ String "034" "";
      "_BUILD_ARG_MY_TOOLS_DOCKER_IN_DOCKER=true";
      "DOCKER_VERSION=latest" ].
Proof.
  destruct (feature_env_variables_layout sample_getFeatureValueObject (λ _, OString "latest")
              options_feature [("version", OString "latest"); ("moby", OBoolean true)])
    as [Hlines _].
  - reflexivity.
  - simpl. repeat constructor; rewrite ?elem_of_cons, ?elem_of_nil; naive_solver.
  - reflexivity.
  - by repeat constructor.
  - exact Hlines.
Defined.

(** C8 at the failing input: the legacy backend, [two_sets_config], and a
    host where [/tmp/__dev-containers-build-empty/stale.txt] exists. The
    file is in the context directory when the main build is started. *)
Lemma extendImage_context_directory_is_not_emptied_witness :
  ∃ calls files',
    (extendImage false sample_getSourceInfoString sample_getFeatureValueObject
       (λ _, OString "latest") sample_join sample_join "/tmp" false "vsc-app"
       false (λ _, false) "/ext/container-features" "/tmp/vsch/container-features" false
       false (Some two_sets_config) "FROM base" "img" "root").1
    = [InspectDockerImage "img" false; CreateFeaturesTempFolder;
       GenerateFeaturesConfig "/tmp/vsch/container-features"] ++ calls
    ∧ files_at_last_call [] ["/tmp/__dev-containers-build-empty/stale.txt"] calls = Some files'
    ∧ "/tmp/__dev-containers-build-empty/stale.txt"
      ∈ filter (λ p, String.prefix "/tmp/__dev-containers-build-empty/" p) files'.
Proof.
  destruct (extendImage_context_directory_is_not_emptied
              false sample_getSourceInfoString sample_getFeatureValueObject
              (λ _, OString "latest") sample_join sample_join "/tmp" false "vsc-app"
              false (λ _, false) "/ext/container-features" "/tmp/vsch/container-features" false
              false two_sets_config "/tmp/dst" "FROM base" "img" "root")
    as (probes & envFiles & Hrun & _ & _ & Hkeep).
  - reflexivity.
  - discriminate.
  - destruct (Hkeep [] ["/tmp/__dev-containers-build-empty/stale.txt"]
                "/tmp/__dev-containers-build-empty/stale.txt")
      as (files' & Hfiles & Hin).
    + apply list_elem_of_here.
    + eexists _, files'. rewrite Hrun. split; [reflexivity|]. split; [exact Hfiles|exact Hin].
Defined.

(** ** More concrete configurations *)

Lemma stages_throw_without_scripts_entry_witness :
  getFeatureBuildStages false sample_getSourceInfoString sample_join
    two_sets_config [ [("first", {| hasAcquire := true; hasConfigure := true |})] ] "."
  = None.
Proof.
  apply (stages_throw_without_scripts_entry false sample_getSourceInfoString sample_join
           two_sets_config [ [("first", {| hasAcquire := true; hasConfigure := true |})] ]
           "." 1 {| sourceInformation := octocat; features := [env_feature "second" "B" "2"] |}
           (env_feature "second" "B" "2")).
  - reflexivity.
  - reflexivity.
  - apply list_elem_of_here.
  - reflexivity.
Defined.

Lemma no_stages_without_acquire_witness :
  getFeatureBuildStages false sample_getSourceInfoString sample_join
    two_sets_config [ []; [] ] "." = Some ""
  ∧ getCopyFeatureBuildStages false sample_getSourceInfoString sample_join
      two_sets_config [ []; [] ] = Some "".
Proof.
  apply (no_stages_without_acquire false sample_getSourceInfoString sample_join
           two_sets_config [ []; [] ] ".").
  - simpl. lia.
  - intros [|[|i]] featureSet f Hi _ _; simpl in Hi; [done..|discriminate].
Defined.

Lemma extended_image_name_witness :
  (extendImage false sample_getSourceInfoString sample_getFeatureValueObject
     (λ _, OString "latest") sample_join sample_join "/tmp" false "vsc-app"
     false (λ _, false) "/ext/container-features" "/tmp/vsch/container-features" false
     true (Some two_sets_config) "FROM base" "vsc-app-1234" "root").2
  = "vsc-app-1234-features".
Proof.
  destruct (extended_image_name false sample_getSourceInfoString sample_getFeatureValueObject
              (λ _, OString "latest") sample_join sample_join "/tmp" false "vsc-app"
              false (λ _, false) "/ext/container-features" "/tmp/vsch/container-features" false
              true two_sets_config "FROM base" "vsc-app-1234" "root") as [Hname _].
  - reflexivity.
  - exact Hname.
Defined.

(** ** Safe ids *)

Lemma map_chars_app g s t :
  Js.map_chars g (s +:+ t) = Js.map_chars g s +:+ Js.map_chars g t.
Proof.
  induction s as [|c s IH]; [done|].
  rewrite JsText.cons_app. simpl. rewrite IH. by rewrite JsText.cons_app.
Qed.

(** The characters getFeatureSafeId turns into an underscore, and the
    underscore itself. *)
Definition reads_as_underscore (c : ascii) : bool :=
  feature_path_separator c || Ascii.eqb c "_".

Lemma safe_char_underscore c :
  reads_as_underscore c = true →
  Js.upper_ascii (if feature_path_separator c then "_"%char else c) = "_"%char.
Proof.
  destruct c as [[] [] [] [] [] [] [] []]; vm_compute; done.
Qed.

Lemma safe_char_idempotent c :
  let k := λ c, Js.upper_ascii (if feature_path_separator c then "_"%char else c) in
  k (k c) = k c.
Proof.
  destruct c as [[] [] [] [] [] [] [] []]; vm_compute; done.
Qed.

(** X12: which ids share a safe id. Two ids that differ in one place, where
    each has a slash, a dash or an underscore, have the same safe id, so
    their features write the same [_BUILD_ARG_] names; and a safe id is its
    own safe id. *)
Theorem safe_id_collapses_separators (f g : Feature) (a b : string) (c d : ascii) :
  id f = a +:+ String c b → id g = a +:+ String d b →
  reads_as_underscore c = true → reads_as_underscore d = true →
  getFeatureSafeId f = getFeatureSafeId g
  ∧ ∀ h, id h = getFeatureSafeId f → getFeatureSafeId h = getFeatureSafeId f.
Proof.
  intros Hf Hg Hc Hd.
  assert (∀ x, getFeatureSafeId x
    = Js.map_chars (λ c, Js.upper_ascii (if feature_path_separator c then "_"%char else c)) (id x))
    as Hsafe by (intros x; apply map_chars_compose).
  split.
  - rewrite !Hsafe, Hf, Hg, !map_chars_app. simpl.
    by rewrite (safe_char_underscore c Hc), (safe_char_underscore d Hd).
  - intros h Hh. rewrite (Hsafe h), Hh, (Hsafe f), map_chars_compose.
    apply map_chars_ext. intros x. apply safe_char_idempotent.
Qed.

Lemma safe_id_collapses_separators_witness :
  getFeatureSafeId (env_feature "docker-in-docker" "A" "1")
  = getFeatureSafeId (env_feature "docker/in-docker" "A" "1").
Proof.
  destruct (safe_id_collapses_separators
              (env_feature "docker-in-docker" "A" "1")
              (env_feature "docker/in-docker" "A" "1")
              "docker" "in-docker" "-" "/") as [Hsame _].
  - reflexivity.
  - reflexivity.
  - reflexivity.
  - reflexivity.
  - exact Hsame.
Defined.

(** ** updateRemoteUserUID *)

(** The calls updateRemoteUserUID makes on the host, the last one through
    [dockerPtyCLI]. *)
Inductive UidCall :=
| UidMkdirp (path : string)
| UidWriteFile (path content : string)
| UidRename (oldPath newPath : string)
| UidDockerPtyCLI (args : list string).

(** What updateRemoteUserUID reads of [params] and [cliHost]. *)
Record UidParams := {
  updateRemoteUserUIDDefault : string;
  updateRemoteUserUIDOnMacOS : bool;
  platform : string;
}.

(** What it reads of the configuration: [updateRemoteUserUID] when it is a
    boolean, and [remoteUser]. *)
Record UidConfig := {
  updateRemoteUserUID_setting : option bool;
  remoteUser : option string;
}.

(** [a || b] on optional strings: the first truthy one. *)
Definition or_else (a : option string) (b : string) : string :=
  if truthy_string a then default "" a else b.

(** [/^\d+$/.test(s)]. *)
Fixpoint all_digits (s : string) : bool :=
  match s with
  | "" => true
  | String c rest =>
      let n := N_of_ascii c in ((48 <=? n) && (n <=? 57))%N && all_digits rest
  end.

Definition is_numeric (s : string) : bool := negb (String.eqb s "") && all_digits s.

Section UpdateRemoteUserUID.

(** [cliHost.path.join], [cliHost.path.dirname], Node's [path.join],
    [cliHost.tmpdir()], [Date.now()] as text, [common.extensionPath],
    [common.package.version], [cliHost.getuid()] and [cliHost.getgid()] as
    text, [getFolderImageName(common)], and [readLocalFile] ([None] when it
    rejects). *)
Variable cliHost_path_join : list string → string.
Variable cliHost_path_dirname : string → string.
Variable path_join : list string → string.
Variable cliHost_tmpdir : string.
Variable now : string.
Variable extensionPath : string.
Variable version : string.
Variable uid : string.
Variable gid : string.
Variable folderImageName : string.
Variable readLocalFile : string → option string.

(** The first guard: the update is switched off, or the platform is not
    served. *)
Definition uid_update_off (params : UidParams) (config : UidConfig) : bool :=
  String.eqb (updateRemoteUserUIDDefault params) "never"
  || negb (match updateRemoteUserUID_setting config with
           | Some setting => setting
           | None => String.eqb (updateRemoteUserUIDDefault params) "on"
           end)
  || negb (String.eqb (platform params) "linux"
           || updateRemoteUserUIDOnMacOS params && String.eqb (platform params) "darwin").

(** updateRemoteUserUID: the host calls it makes, in order, and the image
    name it returns ([None] when readLocalFile rejects). [configUser] is
    [Config.User] of the inspected image. *)
Definition updateRemoteUserUID (params : UidParams) (config : UidConfig)
    (imageName : string) (configUser : option string) (runArgsUser : option string)
    : list UidCall * option string :=
  if uid_update_off params config then ([], Some imageName)
  else
    let imageUser := or_else configUser "root" in
    let remoteUser := or_else (remoteUser config) (or_else runArgsUser imageUser) in
    if String.eqb remoteUser "root" || is_numeric remoteUser then ([], Some imageName)
    else
      let fixedImageName :=
        (if Js.startsWith folderImageName imageName then imageName else folderImageName)
        +:+ "-uid" in
      let dockerfileName := "updateUID.Dockerfile" in
      let srcDockerfile := path_join [extensionPath; "scripts"; dockerfileName] in
      let destDockerfile :=
        cliHost_path_join [cliHost_tmpdir; "vsch"; dockerfileName +:+ "-" +:+ version] in
      let tmpDockerfile := destDockerfile +:+ "-" +:+ now in
      match readLocalFile srcDockerfile with
      | None => ([UidMkdirp (cliHost_path_dirname tmpDockerfile)], None)
      | Some content =>
          let args :=
            ["build"; "-f"; destDockerfile; "-t"; fixedImageName;
             "--build-arg"; "BASE_IMAGE=" +:+ imageName;
             "--build-arg"; "REMOTE_USER=" +:+ remoteUser;
             "--build-arg"; "NEW_UID=" +:+ uid;
             "--build-arg"; "NEW_GID=" +:+ gid;
             "--build-arg"; "IMAGE_USER=" +:+ imageUser;
             cliHost_path_dirname destDockerfile] in
          ([UidMkdirp (cliHost_path_dirname tmpDockerfile);
            UidWriteFile tmpDockerfile content;
            UidRename tmpDockerfile destDockerfile;
            UidDockerPtyCLI args],
           Some fixedImageName)
      end.

Lemma all_digits_get (s : string) :
  all_digits s = true ↔ ∀ i c, String.get i s = Some c → (48 ≤ N_of_ascii c ≤ 57)%N.
Proof.
  induction s as [|c s IH]; simpl; [done|].
  rewrite andb_true_iff, andb_true_iff, N.leb_le, N.leb_le, IH. split.
  - intros [Hc Hs] [|i] d; [by intros [= <-]|apply Hs].
  - intros Hall. split; [apply (Hall 0); done|]. intros i d. apply (Hall (S i)).
Qed.

(** X13: when updateRemoteUserUID leaves the image alone. It makes no call
    exactly when the default is [never], or the configuration says [false],
    or the configuration says nothing and the default is not [on], or the
    platform is neither [linux] nor, with the macOS switch on, [darwin], or
    the remote user is [root], or the remote user is made of digits only;
    and it then returns the image name it was given. The remote user is
    the first non-empty one of the configuration's, the one of the run
    arguments and the image's, and [root] when there is none. *)
Theorem uid_update_skipped_iff (params : UidParams) (config : UidConfig)
    (imageName : string) (configUser runArgsUser : option string) :
  let first_of := λ (a : option string) (b : string),
    match a with
    | Some (String c s) => String c s
    | _ => b
    end in
  let user := first_of (remoteUser config) (first_of runArgsUser (first_of configUser "root")) in
  let skipped : Prop :=
    updateRemoteUserUIDDefault params = "never"
    ∨ updateRemoteUserUID_setting config = Some false
    ∨ (updateRemoteUserUID_setting config = None ∧ updateRemoteUserUIDDefault params ≠ "on")
    ∨ (platform params ≠ "linux"
       ∧ ¬ (updateRemoteUserUIDOnMacOS params = true ∧ platform params = "darwin"))
    ∨ user = "root"
    ∨ (user ≠ "" ∧ ∀ i c, String.get i user = Some c → (48 ≤ N_of_ascii c ≤ 57)%N) in
  ((updateRemoteUserUID params config imageName configUser runArgsUser).1 = [] ↔ skipped)
  ∧ (skipped →
     updateRemoteUserUID params config imageName configUser runArgsUser
     = ([], Some imageName)).
Proof.
  intros first_of user skipped.
  assert (or_else (remoteUser config) (or_else runArgsUser (or_else configUser "root")) = user)
    as Huser.
  { unfold user, first_of, or_else, truthy_string.
    by destruct (remoteUser config) as [[|]|], runArgsUser as [[|]|], configUser as [[|]|]. }
  assert (uid_update_off params config || String.eqb user "root" || is_numeric user = true
          ↔ skipped) as Hskipped.
  { unfold skipped, uid_update_off, is_numeric.
    rewrite !orb_true_iff, !negb_true_iff, andb_true_iff, negb_true_iff,
      orb_false_iff, andb_false_iff, all_digits_get.
    destruct (String.eqb_spec (updateRemoteUserUIDDefault params) "never");
      destruct (String.eqb_spec (updateRemoteUserUIDDefault params) "on");
      destruct (String.eqb_spec (platform params) "linux");
      destruct (String.eqb_spec (platform params) "darwin");
      destruct (String.eqb_spec user "root");
      destruct (String.eqb_spec user "");
      destruct (updateRemoteUserUID_setting config) as [[]|];
      destruct (updateRemoteUserUIDOnMacOS params);
      naive_solver. }
  assert (uid_update_off params config || String.eqb user "root" || is_numeric user = true →
          updateRemoteUserUID params config imageName configUser runArgsUser
          = ([], Some imageName)) as Hrun.
  { unfold updateRemoteUserUID. rewrite Huser.
    destruct (uid_update_off params config); simpl; [done|]. by intros ->. }
  split.
  - rewrite <- Hskipped. split; [|by intros ->%Hrun].
    unfold updateRemoteUserUID. rewrite Huser.
    destruct (uid_update_off params config); simpl; [done|].
    destruct (String.eqb user "root" || is_numeric user); simpl; [done|].
    by destruct (readLocalFile _).
  - intros Hs. by apply Hrun, Hskipped.
Qed.

(** X14: what updateRemoteUserUID builds. When the update is on, the remote
    user is neither [root] nor a number and the Dockerfile can be read, it
    creates the directory of the temporary Dockerfile, writes the
    Dockerfile under a name ending in the time, renames it into place, and
    builds from it with the remote user, the host's uid and gid and the
    image user as build arguments; it returns [<base>-uid], which differs
    from the image name it was given. *)
Theorem uid_update_builds (params : UidParams) (config : UidConfig)
    (imageName : string) (configUser runArgsUser : option string) (content : string) :
  let imageUser := or_else configUser "root" in
  let user := or_else (remoteUser config) (or_else runArgsUser imageUser) in
  let dest := cliHost_path_join [cliHost_tmpdir; "vsch"; "updateUID.Dockerfile-" +:+ version] in
  let fixedImageName :=
    (if Js.startsWith folderImageName imageName then imageName else folderImageName)
    +:+ "-uid" in
  uid_update_off params config = false →
  String.eqb user "root" = false → is_numeric user = false →
  readLocalFile (path_join [extensionPath; "scripts"; "updateUID.Dockerfile"]) = Some content →
  updateRemoteUserUID params config imageName configUser runArgsUser
  = ([UidMkdirp (cliHost_path_dirname (dest +:+ "-" +:+ now));
      UidWriteFile (dest +:+ "-" +:+ now) content;
      UidRename (dest +:+ "-" +:+ now) dest;
      UidDockerPtyCLI
        ["build"; "-f"; dest; "-t"; fixedImageName;
         "--build-arg"; "BASE_IMAGE=" +:+ imageName;
         "--build-arg"; "REMOTE_USER=" +:+ user;
         "--build-arg"; "NEW_UID=" +:+ uid;
         "--build-arg"; "NEW_GID=" +:+ gid;
         "--build-arg"; "IMAGE_USER=" +:+ imageUser;
         cliHost_path_dirname dest]],
     Some fixedImageName)
  ∧ fixedImageName ≠ imageName.
Proof.
  intros imageUser user dest fixedImageName Hon Hroot Hnum Hread.
  split.
  - unfold updateRemoteUserUID. fold imageUser user.
    rewrite Hon, Hroot, Hnum. simpl. by rewrite Hread.
  - unfold fixedImageName, Js.startsWith.
    destruct (String.prefix folderImageName imageName) eqn:Hp.
    + intros Heq. apply (f_equal String.length) in Heq.
      rewrite JsText.length_app_string in Heq. simpl in Heq. lia.
    + intros Heq. rewrite <- Heq in Hp.
      clear -Hp. revert Hp. generalize "-uid". intros s.
      induction folderImageName as [|c p IH]; [by destruct s|].
      rewrite JsText.cons_app. cbn -[ascii_dec]. by destruct (ascii_dec c c).
Qed.

End UpdateRemoteUserUID.

Definition linux_on : UidParams :=
  {| updateRemoteUserUIDDefault := "on"; updateRemoteUserUIDOnMacOS := false;
     platform := "linux" |}.

Definition vscode_user : UidConfig :=
  {| updateRemoteUserUID_setting := None; remoteUser := Some "vscode" |}.

Lemma uid_update_builds_witness :
  (updateRemoteUserUID sample_join (λ p, p +:+ "/..") sample_join "/tmp" "1650000000000"
     "/ext" "0.1.0" "1000" "1000" "vsc-app" (λ _, Some "FROM base")
     linux_on vscode_user "img" (Some "root") None).2
  = Some "vsc-app-uid".
Proof.
  destruct (uid_update_builds sample_join (λ p, p +:+ "/..") sample_join "/tmp"
              "1650000000000" "/ext" "0.1.0" "1000" "1000" "vsc-app" (λ _, Some "FROM base")
              linux_on vscode_user "img" (Some "root") None "FROM base") as [Hrun _].
  - reflexivity.
  - reflexivity.
  - reflexivity.
  - reflexivity.
  - by rewrite Hrun.
Defined.

End ContainerFeatures.

(* ================================================================== *)
(** * The features test command *)
(* ================================================================== *)

Module FeaturesTest.

(** What the command does to the outside, in order: writes to the standard
    streams, calls on the host, the call of [launch] on a workspace folder,
    and [process.exit]. *)
Inductive ProcessEvent :=
| Stdout (text : string)
| Stderr (text : string)
| HostMkdirp (path : string)
| HostWriteFile (path content : string)
| Launch (workspaceFolder : string)
| Exit (code : Z).

#[global] Instance ProcessEvent_eq_dec : EqDecision ProcessEvent.
Proof. solve_decision. Defined.

Definition banner : string :=
  Js.LF
  +:+ "┌ ─ ─ ─ ─ ─ ─ ─ ─ ─ ─ ─ ─ ─ ─ ┐" +:+ Js.LF
  +:+ "|    dev container 'features' |   " +:+ Js.LF
  +:+ "│     Testing Tool v0.0.0     │" +:+ Js.LF
  +:+ "└ ─ ─ ─ ─ ─ ─ ─ ─ ─ ─ ─ ─ ─ ─ ┘" +:+ Js.LF +:+ Js.LF.

Definition devcontainerTemplate : string :=
  Js.LF
  +:+ "{" +:+ Js.LF
  +:+ "    " +:+ Js.DQUOTE +:+ "image" +:+ Js.DQUOTE +:+ ": "
  +:+ Js.DQUOTE +:+ "#{IMAGE}" +:+ Js.DQUOTE +:+ "," +:+ Js.LF
  +:+ "    " +:+ Js.DQUOTE +:+ "features" +:+ Js.DQUOTE +:+ ": {" +:+ Js.LF
  +:+ "        #{FEATURES}" +:+ Js.LF
  +:+ "    }" +:+ Js.LF
  +:+ "}".

Section Command.

(** [os.tmpdir()], [Date.now().toString()], Node's [path.join], and
    [String.prototype.replace] with a string pattern ([replace subject
    pattern replacement]). *)
Variable os_tmpdir : string.
Variable now : string.
Variable path_join : list string → string.
Variable replace : string → string → string → string.
(** [launch] of spec-node/devContainers for a workspace folder: the JSON
    text of its result, or [None] when it rejects. *)
Variable launch : string → option string.

Definition createTempDevcontainerFolder : list ProcessEvent * string :=
  let systemTmpDir := os_tmpdir in
  let tmpFolder := path_join [systemTmpDir; "vsch"; "container-features-test"; now] in
  ([HostMkdirp (tmpFolder +:+ "/.devcontainer")], tmpFolder).

Definition generateProject (baseImage basePathToCollection : string)
    (featuresToTest : list string) : list ProcessEvent * string :=
  let (created, tmpFolder) := createTempDevcontainerFolder in
  let features :=
    Js.join ("," +:+ Js.LF)
      ((λ x, Js.DQUOTE +:+ basePathToCollection +:+ "/" +:+ x +:+ Js.DQUOTE +:+ ": "
             +:+ Js.DQUOTE +:+ "latest" +:+ Js.DQUOTE) <$> featuresToTest) in
  let template :=
    replace (replace devcontainerTemplate "#{IMAGE}" baseImage) "#{FEATURES}" features in
  (created ++ [HostWriteFile (tmpFolder +:+ "/.devcontainer/devcontainer.json") template],
   tmpFolder).

Definition doFeaturesTestCommand (baseImage pathToCollection commaSeparatedFeatures : string)
    : list ProcessEvent :=
  let printed :=
    [ Stdout banner;
      Stdout ("baseImage:         " +:+ baseImage +:+ Js.LF);
      Stdout ("pathToCollection:  " +:+ pathToCollection +:+ Js.LF);
      Stdout ("features:          " +:+ commaSeparatedFeatures +:+ Js.LF +:+ Js.LF +:+ Js.LF) ] in
  let features := Js.split "," commaSeparatedFeatures in
  if (length features =? 0)%nat then
    printed ++ [Stderr ("No features specified" +:+ Js.LF); Exit 1]
  else
    let (generated, workspaceFolder) := generateProject baseImage pathToCollection features in
    printed ++ generated
    ++ [Stdout ("[+] workspaceFolder: " +:+ workspaceFolder); Launch workspaceFolder]
    ++ match launch workspaceFolder with
       | Some launchResult => [Stdout launchResult; Exit 0]
       | None => []
       end.

Lemma split_cons sep s : ∃ piece rest, Js.split sep s = piece :: rest.
Proof.
  induction s as [|c s (piece & rest & IH)]; simpl; [by eauto|].
  destruct (Ascii.eqb c sep); [by eauto|]. rewrite IH. eauto.
Qed.

(** C10 (evaluation of the code). [split(',')] never yields an empty array:
    of the empty string it yields one empty feature name. So the test
    [features.length === 0] fails on every input: the command never writes
    "No features specified" and never exits with status 1, and for the empty
    features string it goes on to generate a project for the feature [""],
    calls [launch], and exits with status 0 when [launch] returns. *)
Theorem no_features_branch_is_never_taken :
  (∀ s, 1 ≤ length (Js.split "," s))
  ∧ Js.split "," "" = [""]
  ∧ (∀ baseImage pathToCollection commaSeparatedFeatures,
       let events := doFeaturesTestCommand baseImage pathToCollection commaSeparatedFeatures in
       (Stderr ("No features specified" +:+ Js.LF) ∉ events) ∧ (Exit 1 ∉ events))
  ∧ (∀ baseImage pathToCollection launchResult,
       launch (generateProject baseImage pathToCollection [""]).2 = Some launchResult →
       ∃ events,
         doFeaturesTestCommand baseImage pathToCollection ""
         = events ++ [Launch (generateProject baseImage pathToCollection [""]).2;
                      Stdout launchResult; Exit 0]).
Proof.
  split; [|split; [done|split]].
  - intros s. destruct (split_cons "," s) as (piece & rest & ->). simpl. lia.
  - intros baseImage pathToCollection s. unfold doFeaturesTestCommand.
    destruct (split_cons "," s) as (piece & rest & ->). simpl.
    destruct (launch _); rewrite !elem_of_cons, ?elem_of_nil; naive_solver.
  - intros baseImage pathToCollection launchResult Hlaunch.
    unfold doFeaturesTestCommand. simpl in *. rewrite Hlaunch.
    eexists [_; _; _; _; _; _; _]. reflexivity.
Qed.

End Command.

(** ** The generated project and the exit status *)

(** One entry of the [features] object of the generated devcontainer.json. *)
Definition feature_entry (basePathToCollection x : string) : string :=
  Js.DQUOTE +:+ basePathToCollection +:+ "/" +:+ x +:+ Js.DQUOTE +:+ ": "
  +:+ Js.DQUOTE +:+ "latest" +:+ Js.DQUOTE.

Lemma feature_entries_lack_dollar basePathToCollection (featuresToTest : list string) :
  JsText.lacks "$" basePathToCollection = true →
  Forall (λ x, JsText.lacks "$" x = true) featuresToTest →
  JsText.lacks "$"
    (Js.join ("," +:+ Js.LF) (feature_entry basePathToCollection <$> featuresToTest)) = true.
Proof.
  intros Hc Hl. apply JsText.lacks_join; [done|].
  apply Forall_fmap, Forall_forall. intros x Hx. simpl.
  pose proof (proj1 (Forall_forall _ _) Hl x Hx) as Hlx.
  unfold feature_entry. by rewrite !JsText.lacks_app, Hc, Hlx.
Qed.

(** X15: the project generateProject writes. For a base image without ['#']
    and ['$'] and a collection path and feature names without ['$'], it
    creates [<tmpFolder>/.devcontainer] and then writes there a
    devcontainer.json that is the template with the image put in and one
    ["<collection>/<feature>": "latest"] entry per feature, in order,
    separated by a comma and a line feed; it returns the folder. *)
Theorem generated_project (os_tmpdir now : string) (path_join : list string → string)
    (baseImage basePathToCollection : string) (featuresToTest : list string) :
  JsText.lacks "#" baseImage = true → JsText.lacks "$" baseImage = true →
  JsText.lacks "$" basePathToCollection = true →
  Forall (λ x, JsText.lacks "$" x = true) featuresToTest →
  let tmpFolder := path_join [os_tmpdir; "vsch"; "container-features-test"; now] in
  generateProject os_tmpdir now path_join JsText.replace
    baseImage basePathToCollection featuresToTest
  = ([ HostMkdirp (tmpFolder +:+ "/.devcontainer");
       HostWriteFile (tmpFolder +:+ "/.devcontainer/devcontainer.json")
         (Js.LF +:+ "{" +:+ Js.LF
          +:+ "    " +:+ Js.DQUOTE +:+ "image" +:+ Js.DQUOTE +:+ ": "
          +:+ Js.DQUOTE +:+ baseImage +:+ Js.DQUOTE +:+ "," +:+ Js.LF
          +:+ "    " +:+ Js.DQUOTE +:+ "features" +:+ Js.DQUOTE +:+ ": {" +:+ Js.LF
          +:+ "        "
          +:+ Js.join ("," +:+ Js.LF) (feature_entry basePathToCollection <$> featuresToTest)
          +:+ Js.LF
          +:+ "    }" +:+ Js.LF
          +:+ "}") ],
     tmpFolder).
Proof.
  intros Hhash Hdollar Hcoll Hfeatures tmpFolder.
  pose proof (feature_entries_lack_dollar _ _ Hcoll Hfeatures) as Hentries.
  unfold generateProject, createTempDevcontainerFolder. fold tmpFolder.
  change (λ x, Js.DQUOTE +:+ basePathToCollection +:+ "/" +:+ x +:+ Js.DQUOTE +:+ ": "
               +:+ Js.DQUOTE +:+ "latest" +:+ Js.DQUOTE)
    with (feature_entry basePathToCollection).
  set (features := Js.join ("," +:+ Js.LF) (feature_entry basePathToCollection <$> featuresToTest))
    in *.
  set (before1 := Js.LF +:+ "{" +:+ Js.LF +:+ "    " +:+ Js.DQUOTE +:+ "image" +:+ Js.DQUOTE
                  +:+ ": " +:+ Js.DQUOTE).
  set (middle := Js.DQUOTE +:+ "," +:+ Js.LF +:+ "    " +:+ Js.DQUOTE +:+ "features"
                 +:+ Js.DQUOTE +:+ ": {" +:+ Js.LF +:+ "        ").
  set (after2 := Js.LF +:+ "    }" +:+ Js.LF +:+ "}").
  rewrite (JsText.replace_found devcontainerTemplate "#{IMAGE}" baseImage before1
             (middle +:+ "#{FEATURES}" +:+ after2)) by (done || by vm_compute).
  rewrite (JsText.replace_skip "#" "{FEATURES}" before1) by (done || by vm_compute).
  rewrite (JsText.replace_skip "#" "{FEATURES}" baseImage) by done.
  rewrite (JsText.replace_found (middle +:+ "#{FEATURES}" +:+ after2) "#{FEATURES}" features
             middle after2) by (done || by vm_compute).
  unfold before1, middle, after2. by rewrite !JsText.app_app.
Qed.

Lemma generated_project_witness :
  (generateProject "/tmp" "1650000000000" (Js.join "/") JsText.replace
     "ubuntu:focal" "./features" ["helloworld"; "docker"]).2
  = "/tmp/vsch/container-features-test/1650000000000".
Proof.
  rewrite (generated_project "/tmp" "1650000000000" (Js.join "/")
             "ubuntu:focal" "./features" ["helloworld"; "docker"]).
  - reflexivity.
  - reflexivity.
  - reflexivity.
  - reflexivity.
  - by repeat constructor.
Defined.

(** X16: the exit status follows [launch]. The command calls [process.exit]
    only with status 0, and only after [launch] has resolved; when [launch]
    rejects, the command ends on the call of [launch] without exiting. *)
Theorem exit_status_follows_launch (os_tmpdir now : string) (path_join : list string → string)
    (replace : string → string → string → string) (launch : string → option string)
    (baseImage pathToCollection commaSeparatedFeatures : string) :
  let events :=
    doFeaturesTestCommand os_tmpdir now path_join replace launch
      baseImage pathToCollection commaSeparatedFeatures in
  let workspaceFolder := path_join [os_tmpdir; "vsch"; "container-features-test"; now] in
  (∀ code, Exit code ∈ events → code = 0%Z ∧ is_Some (launch workspaceFolder))
  ∧ (launch workspaceFolder = None → List.last events (Exit 0) = Launch workspaceFolder)
  ∧ (is_Some (launch workspaceFolder) → List.last events (Launch "") = Exit 0).
Proof.
  intros events workspaceFolder. unfold events, doFeaturesTestCommand.
  destruct (JsText.split_is_cons "," commaSeparatedFeatures) as (piece & rest & ->).
  simpl. fold workspaceFolder.
  destruct (launch workspaceFolder) as [result|]; simpl.
  - split; [|split; [done|done]].
    intros code. rewrite !elem_of_cons, elem_of_nil. naive_solver.
  - split; [|split; [done|by intros []]].
    intros code. rewrite !elem_of_cons, elem_of_nil. naive_solver.
Qed.

(** X17: the features the command tests. The command generates one project
    for the pieces of the features string between its commas: the pieces
    hold no comma, joined with commas they give the string back, and there
    is one more of them than there are commas, so at least one. After the
    four lines it prints first come the calls of generateProject for these
    pieces, then the line with the workspace folder and the call of
    [launch]. *)
Theorem command_tests_the_listed_features (os_tmpdir now : string)
    (path_join : list string → string) (replace : string → string → string → string)
    (launch : string → option string)
    (baseImage pathToCollection commaSeparatedFeatures : string) :
  ∃ features : list string,
    Js.join "," features = commaSeparatedFeatures
    ∧ Forall (λ x, JsText.lacks "," x = true) features
    ∧ length features = S (JsText.count_char "," commaSeparatedFeatures)
    ∧ ∃ printed rest,
        length printed = 4
        ∧ doFeaturesTestCommand os_tmpdir now path_join replace launch
            baseImage pathToCollection commaSeparatedFeatures
          = printed
            ++ (generateProject os_tmpdir now path_join replace
                  baseImage pathToCollection features).1
            ++ [Stdout ("[+] workspaceFolder: "
                        +:+ path_join [os_tmpdir; "vsch"; "container-features-test"; now]);
                Launch (path_join [os_tmpdir; "vsch"; "container-features-test"; now])]
            ++ rest.
Proof.
  exists (Js.split "," commaSeparatedFeatures).
  destruct (JsText.split_pieces "," commaSeparatedFeatures) as (Hjoin & Hlacks & Hlen).
  split; [done|]. split; [done|]. split; [done|].
  unfold doFeaturesTestCommand.
  destruct (Js.split "," commaSeparatedFeatures) as [|piece rest] eqn:Hsplit; [done|].
  simpl. by eexists [_; _; _; _], _.
Qed.

End FeaturesTest.

(* ================================================================== *)
(** * Feature identifiers *)
(* ================================================================== *)

Module FeatureIdentifier.
Import FeaturesConfiguration.

(** The characters of a feature id: [[A-Za-z0-9_]] first, then
    [[A-Za-z0-9_-]]. *)
Definition is_word_char (c : ascii) : bool :=
  let n := N_of_ascii c in
  ((48 <=? n) && (n <=? 57) || (65 <=? n) && (n <=? 90) || (97 <=? n) && (n <=? 122)
   || (n =? 95))%N.

Definition is_id_char (c : ascii) : bool := is_word_char c || Ascii.eqb c "-".

Fixpoint all_chars (p : ascii → bool) (s : string) : bool :=
  match s with
  | "" => true
  | String c rest => p c && all_chars p rest
  end.

Definition valid_id (s : string) : bool :=
  match s with
  | "" => false
  | String c rest => is_word_char c && all_chars is_id_char rest
  end.

(** The text before the first [sep] and, when there is one, the text after. *)
Fixpoint split_first (sep : ascii) (s : string) : string * option string :=
  match s with
  | "" => ("", None)
  | String c rest =>
      if Ascii.eqb c sep then ("", Some rest)
      else let (before, after) := split_first sep rest in (String c before, after)
  end.

(** The text before the last [sep] and the text after it. *)
Fixpoint split_last (sep : ascii) (s : string) : option (string * string) :=
  match s with
  | "" => None
  | String c rest =>
      match split_last sep rest with
      | Some (before, after) => Some (String c before, after)
      | None => if Ascii.eqb c sep then Some ("", rest) else None
      end
  end.

(** Modelled from the spec: rule 1 of section 4.1 (a string with [://] is a
    direct tarball when it ends in [.tgz#<id>] with a valid id, and is
    rejected otherwise). parseFeatureIdentifier belongs to
    spec-configuration/containerFeaturesConfiguration, which is not among the
    sources; only its tests are. *)
Definition parse_direct_tarball (identifier : string) : option (SourceInformation * string) :=
  match split_last "#" identifier with
  | Some (tarballUri, featureId) =>
      if Js.endsWith ".tgz" tarballUri && valid_id featureId
      then Some (DirectTarball tarballUri, featureId) else None
  | None => None
  end.

(** Modelled from the spec: rule 2 (a path; the trailing segment is the
    feature id). The spec leaves the recorded [filePath] open; the identifier
    is kept as it is. *)
Definition parse_file_path (identifier : string) : option (SourceInformation * string) :=
  Some (FilePath identifier (negb (Js.startsWith "/" identifier)),
        List.last (Js.split "/" identifier) "").

(** Modelled from the spec: rule 3 ([<owner>/<repo>/<id>(@<tag>)?], exactly
    three segments before any [@], a valid id), with the URIs of rule 3 and
    of scenarios 2 and 3. Owner, repository and a given tag are taken to be
    non-empty. *)
Definition parse_github_repo (identifier : string) : option (SourceInformation * string) :=
  let (path, tag) := split_first "@" identifier in
  match Js.split "/" path with
  | [owner; repo; featureId] =>
      if negb (String.eqb owner "") && negb (String.eqb repo "") && valid_id featureId then
        match tag with
        | None =>
            Some (GithubRepo owner repo None true
                    ("https://api.github.com/repos/" +:+ owner +:+ "/" +:+ repo
                     +:+ "/releases/latest")
                    ("https://github.com/" +:+ owner +:+ "/" +:+ repo
                     +:+ "/releases/latest/download/devcontainer-features.tgz"),
                  featureId)
        | Some tag =>
            if String.eqb tag "" then None
            else
              Some (GithubRepo owner repo (Some tag) false
                      ("https://api.github.com/repos/" +:+ owner +:+ "/" +:+ repo
                       +:+ "/releases/tags/" +:+ tag)
                      ("https://github.com/" +:+ owner +:+ "/" +:+ repo
                       +:+ "/releases/download/" +:+ tag +:+ "/devcontainer-features.tgz"),
                    featureId)
        end
      else None
  | _ => None
  end.

(** Modelled from the spec: the rules of section 4.1 in their order; [None]
    is the rejection of rule 5. *)
Definition parseFeatureIdentifier (identifier : string) : option (SourceInformation * string) :=
  if Js.includes "://" identifier then parse_direct_tarball identifier
  else if Js.startsWith "./" identifier || Js.startsWith "../" identifier
          || Js.startsWith "/" identifier
  then parse_file_path identifier
  else
    match parse_github_repo identifier with
    | Some parsed => Some parsed
    | None => if valid_id identifier then Some (LocalCache, identifier) else None
    end.

(** ** Strings built from segments *)

Definition is_not (x c : ascii) : bool := negb (Ascii.eqb c x).

(** A character that is none of ['/'], ['@'] and [':']. *)
Definition plain (c : ascii) : bool := is_not "/" c && is_not "@" c && is_not ":" c.

(** A non-empty run of plain characters, as the owner and the repository
    name of a GitHub identifier are. *)
Definition segment (s : string) : bool := negb (String.eqb s "") && all_chars plain s.

Lemma append_cons (x : ascii) (a b : string) : String x a +:+ b = String x (a +:+ b).
Proof. reflexivity. Qed.

Lemma append_nil_l (b : string) : "" +:+ b = b.
Proof. reflexivity. Qed.

Lemma append_nil_r (a : string) : a +:+ "" = a.
Proof. induction a as [|x a IH]; [done|]. by rewrite append_cons, IH. Qed.

Lemma append_assoc (a b c : string) : (a +:+ b) +:+ c = a +:+ (b +:+ c).
Proof. induction a as [|x a IH]; [done|]. by rewrite !append_cons, IH. Qed.

Lemma all_chars_app p a b : all_chars p (a +:+ b) = all_chars p a && all_chars p b.
Proof.
  induction a as [|x a IH]; [done|].
  rewrite append_cons. simpl. by rewrite IH, andb_assoc.
Qed.

Lemma all_chars_impl (p q : ascii → bool) s :
  (∀ c, p c = true → q c = true) → all_chars p s = true → all_chars q s = true.
Proof.
  intros Hpq. induction s as [|x s IH]; simpl; [done|].
  intros [Hx Hs]%andb_true_iff. rewrite (Hpq x Hx). by apply IH.
Qed.

Lemma split_first_absent sep s :
  all_chars (is_not sep) s = true → split_first sep s = (s, None).
Proof.
  induction s as [|x s IH]; simpl; [done|].
  intros [Hx Hs]%andb_true_iff. unfold is_not in Hx.
  destruct (Ascii.eqb x sep); [done|]. by rewrite IH.
Qed.

Lemma split_first_app sep a b :
  all_chars (is_not sep) a = true → split_first sep (a +:+ String sep b) = (a, Some b).
Proof.
  induction a as [|x a IH]; [rewrite append_nil_l|rewrite append_cons]; simpl.
  - by rewrite Ascii.eqb_refl.
  - intros [Hx Hs]%andb_true_iff. unfold is_not in Hx.
    destruct (Ascii.eqb x sep); [done|]. by rewrite IH.
Qed.

Lemma split_absent sep s : all_chars (is_not sep) s = true → Js.split sep s = [s].
Proof.
  induction s as [|x s IH]; simpl; [done|].
  intros [Hx Hs]%andb_true_iff. unfold is_not in Hx.
  destruct (Ascii.eqb x sep); [done|]. by rewrite IH.
Qed.

Lemma split_app sep a b :
  all_chars (is_not sep) a = true →
  Js.split sep (a +:+ String sep b) = a :: Js.split sep b.
Proof.
  induction a as [|x a IH]; [rewrite append_nil_l|rewrite append_cons]; simpl.
  - by rewrite Ascii.eqb_refl.
  - intros [Hx Hs]%andb_true_iff. unfold is_not in Hx.
    destruct (Ascii.eqb x sep); [done|]. by rewrite IH.
Qed.

Lemma prefix_cons_ne (a c : ascii) (p s : string) :
  a ≠ c → String.prefix (String a p) (String c s) = false.
Proof. intros Hne. cbn -[ascii_dec]. by destruct (ascii_dec a c). Qed.

Lemma is_not_ne x c : is_not x c = true → x ≠ c.
Proof. unfold is_not. intros Hc%negb_true_iff%Ascii.eqb_neq. congruence. Qed.

Lemma includes_scheme_absent s :
  all_chars (is_not ":") s = true → Js.includes "://" s = false.
Proof.
  induction s as [|x s IH]; [done|]. simpl all_chars.
  intros [Hx Hs]%andb_true_iff.
  change (Js.includes "://" (String x s))
    with (String.prefix "://" (String x s) || Js.includes "://" s).
  by rewrite IH, prefix_cons_ne by (done || by apply is_not_ne).
Qed.

Lemma is_id_char_plain c : is_id_char c = true → plain c = true.
Proof. destruct c as [[] [] [] [] [] [] [] []]; vm_compute; congruence. Qed.

Lemma is_word_char_id_char c : is_word_char c = true → is_id_char c = true.
Proof. unfold is_id_char. by intros ->. Qed.

Lemma valid_id_plain s : valid_id s = true → all_chars plain s = true.
Proof.
  destruct s as [|x s]; simpl; [done|].
  intros [Hx Hs]%andb_true_iff.
  rewrite (is_id_char_plain x (is_word_char_id_char x Hx)). simpl.
  exact (all_chars_impl is_id_char plain s is_id_char_plain Hs).
Qed.

Lemma plain_not_slash c : plain c = true → is_not "/" c = true.
Proof. unfold plain. by intros [[? ?]%andb_true_iff ?]%andb_true_iff. Qed.

Lemma plain_not_at c : plain c = true → is_not "@" c = true.
Proof. unfold plain. by intros [[? ?]%andb_true_iff ?]%andb_true_iff. Qed.

Lemma plain_not_colon c : plain c = true → is_not ":" c = true.
Proof. unfold plain. by intros [[? ?]%andb_true_iff ?]%andb_true_iff. Qed.

(** The path [<owner>/<repo>/<id>] is no URI and no file path, holds no
    ['@'], and splits into its three segments. *)
Lemma github_path_shape owner repo featureId :
  segment owner = true → Js.startsWith "." owner = false →
  segment repo = true → valid_id featureId = true →
  let path := owner +:+ "/" +:+ repo +:+ "/" +:+ featureId in
  all_chars (is_not ":") path = true
  ∧ all_chars (is_not "@") path = true
  ∧ Js.split "/" path = [owner; repo; featureId]
  ∧ (∀ rest, Js.startsWith "./" (path +:+ rest) = false
             ∧ Js.startsWith "../" (path +:+ rest) = false
             ∧ Js.startsWith "/" (path +:+ rest) = false)
  ∧ String.eqb owner "" = false ∧ String.eqb repo "" = false.
Proof.
  intros [Ho1 Ho2]%andb_true_iff Hdot [Hr1 Hr2]%andb_true_iff Hid path.
  pose proof (valid_id_plain _ Hid) as Hi2.
  apply negb_true_iff in Ho1, Hr1.
  split; [|split; [|split; [|split]]]; try done.
  - unfold path. rewrite !all_chars_app. simpl.
    rewrite (all_chars_impl plain (is_not ":") owner plain_not_colon Ho2),
      (all_chars_impl plain (is_not ":") repo plain_not_colon Hr2),
      (all_chars_impl plain (is_not ":") featureId plain_not_colon Hi2). done.
  - unfold path. rewrite !all_chars_app. simpl.
    rewrite (all_chars_impl plain (is_not "@") owner plain_not_at Ho2),
      (all_chars_impl plain (is_not "@") repo plain_not_at Hr2),
      (all_chars_impl plain (is_not "@") featureId plain_not_at Hi2). done.
  - unfold path. rewrite !append_cons, !append_nil_l.
    rewrite split_app by (by apply (all_chars_impl plain (is_not "/") owner plain_not_slash)).
    rewrite split_app by (by apply (all_chars_impl plain (is_not "/") repo plain_not_slash)).
    by rewrite split_absent
      by (by apply (all_chars_impl plain (is_not "/") featureId plain_not_slash)).
  - intros rest. unfold path, Js.startsWith in *. destruct owner as [|c owner]; [done|].
    rewrite !append_cons. simpl in Ho2.
    apply andb_true_iff in Ho2 as [Hc _]. apply plain_not_slash, is_not_ne in Hc.
    assert ("."%char ≠ c) as Hd.
    { intros <-. destruct owner; cbn in Hdot; discriminate. }
    by rewrite !prefix_cons_ne.
Qed.

(** C9. For an owner and a repository name that are non-empty and hold no
    ['/'], ['@'] or [':'] (the owner not starting with a dot), a valid
    feature id, and a non-empty tag without [':']: the identifier
    [<owner>/<repo>/<id>@<tag>] parses to a github-repo source with that
    owner, repository and tag, [isLatest = false], the API URI ending in
    [/releases/tags/<tag>] and the download URI ending in
    [/releases/download/<tag>/devcontainer-features.tgz]; without [@<tag>]
    it parses to [isLatest = true] with the URIs ending in [/releases/latest]
    and [/releases/latest/download/devcontainer-features.tgz]. *)
Theorem parse_github_identifier (owner repo featureId tag : string) :
  segment owner = true → Js.startsWith "." owner = false →
  segment repo = true → valid_id featureId = true →
  negb (String.eqb tag "") && all_chars (is_not ":") tag = true →
  parseFeatureIdentifier (owner +:+ "/" +:+ repo +:+ "/" +:+ featureId +:+ "@" +:+ tag)
  = Some (GithubRepo owner repo (Some tag) false
            ("https://api.github.com/repos/" +:+ owner +:+ "/" +:+ repo
             +:+ "/releases/tags/" +:+ tag)
            ("https://github.com/" +:+ owner +:+ "/" +:+ repo
             +:+ "/releases/download/" +:+ tag +:+ "/devcontainer-features.tgz"),
          featureId)
  ∧ parseFeatureIdentifier (owner +:+ "/" +:+ repo +:+ "/" +:+ featureId)
    = Some (GithubRepo owner repo None true
              ("https://api.github.com/repos/" +:+ owner +:+ "/" +:+ repo
               +:+ "/releases/latest")
              ("https://github.com/" +:+ owner +:+ "/" +:+ repo
               +:+ "/releases/latest/download/devcontainer-features.tgz"),
            featureId).
Proof.
  intros Ho Hdot Hr Hid [Ht1 Ht2]%andb_true_iff.
  destruct (github_path_shape owner repo featureId Ho Hdot Hr Hid)
    as (Hcolon & Hat & Hsplit & Hstart & Hoe & Hre).
  apply negb_true_iff in Ht1.
  set (path := owner +:+ "/" +:+ repo +:+ "/" +:+ featureId) in *.
  assert (owner +:+ "/" +:+ repo +:+ "/" +:+ featureId +:+ "@" +:+ tag
          = path +:+ String "@" tag) as ->.
  { unfold path. by rewrite !append_assoc, !append_cons, !append_nil_l. }
  split.
  - unfold parseFeatureIdentifier.
    rewrite includes_scheme_absent
      by (rewrite all_chars_app; simpl; by rewrite Hcolon, Ht2).
    destruct (Hstart (String "@" tag)) as (-> & -> & ->). simpl.
    unfold parse_github_repo. rewrite split_first_app, Hsplit by done.
    by rewrite Hoe, Hre, Hid, Ht1.
  - unfold parseFeatureIdentifier.
    rewrite includes_scheme_absent by done.
    destruct (Hstart "") as (H1 & H2 & H3).
    rewrite append_nil_r in H1, H2, H3. rewrite H1, H2, H3. simpl.
    unfold parse_github_repo. rewrite split_first_absent, Hsplit by done.
    by rewrite Hoe, Hre, Hid.
Qed.

(** C9 at the identifiers of the tests. *)
Lemma parse_github_identifier_witness :
  parseFeatureIdentifier "octocat/myfeatures/helloworld@v0.0.4"
  = Some (GithubRepo "octocat" "myfeatures" (Some "v0.0.4") false
            "https://api.github.com/repos/octocat/myfeatures/releases/tags/v0.0.4"
            "https://github.com/octocat/myfeatures/releases/download/v0.0.4/devcontainer-features.tgz",
          "helloworld")
  ∧ parseFeatureIdentifier "octocat/myfeatures/helloworld"
    = Some (GithubRepo "octocat" "myfeatures" None true
              "https://api.github.com/repos/octocat/myfeatures/releases/latest"
              "https://github.com/octocat/myfeatures/releases/latest/download/devcontainer-features.tgz",
            "helloworld").
Proof.
  apply (parse_github_identifier "octocat" "myfeatures" "helloworld" "v0.0.4");
    reflexivity.
Defined.

End FeatureIdentifier.
